(** * Shortest paths in a weighted graph (task_3.py)

    A shallow embedding of [Graph.add_edge], [Graph.dijkstra] and
    [Graph.shortest_path] together with the part of Python's [heapq] the
    code calls, and the properties of the shortest-path engine. *)

From stdpp Require Import gmap strings list fin_maps sorting.

Open Scope Z_scope.

(** ** Distances

    [distances] holds Python ints and the float [float("inf")]. *)

Inductive dist :=
  | Fin (n : Z)
  | Inf.

#[global] Instance dist_eq_dec : EqDecision dist.
Proof. solve_decision. Defined.

#[global] Instance dist_inhabited : Inhabited dist := populate Inf.

(** [d + weight] : adding an int to [inf] gives [inf]. *)
Definition dist_add (d : dist) (w : Z) : dist :=
  match d with
  | Fin n => Fin (n + w)
  | Inf => Inf
  end.

(** [a < b] on ints and [inf]. *)
Definition dist_ltb (a b : dist) : bool :=
  match a, b with
  | Fin x, Fin y => bool_decide (x < y)
  | Fin _, Inf => true
  | Inf, _ => false
  end.

(** [a <= b] as a proposition, used in statements only. *)
Definition dist_le (a b : dist) : Prop :=
  match a, b with
  | Fin x, Fin y => x <= y
  | _, Inf => True
  | Inf, Fin _ => False
  end.

(** ** HeapItem

    [@dataclass(order=True)] with [node] declared [compare=False]: items are
    ordered by [distance] alone. *)

Record HeapItem := mkHeapItem {
  distance : dist;
  node : string
}.

#[global] Instance HeapItem_eq_dec : EqDecision HeapItem.
Proof. solve_decision. Defined.

#[global] Instance HeapItem_inhabited : Inhabited HeapItem :=
  populate (mkHeapItem Inf EmptyString).

Definition item_lt (a b : HeapItem) : bool :=
  dist_ltb (distance a) (distance b).

(** ** heapq

    The two functions of Python's [heapq] module that the code calls
    (CPython, Lib/heapq.py), on a Python list, with their helpers
    [_siftdown] and [_siftup].  Items are compared with [<] only. *)

Module heapq.

(** The [while pos > startpos] loop of [_siftdown], followed by
    [heap[pos] = newitem].  [pos] halves in every round, so [fuel := pos]
    rounds are enough. *)
Fixpoint siftdown_loop (fuel : nat) (heap : list HeapItem)
    (startpos pos : nat) (newitem : HeapItem) : list HeapItem :=
  match fuel with
  | O => <[pos := newitem]> heap
  | S fuel' =>
    if decide (startpos < pos)%nat then
      let parentpos := ((pos - 1) / 2)%nat in
      let parent := heap !!! parentpos in
      if item_lt newitem parent then
        siftdown_loop fuel' (<[pos := parent]> heap) startpos parentpos newitem
      else <[pos := newitem]> heap
    else <[pos := newitem]> heap
  end.

Definition _siftdown (heap : list HeapItem) (startpos pos : nat)
    : list HeapItem :=
  let newitem := heap !!! pos in
  siftdown_loop pos heap startpos pos newitem.

(** The [while childpos < endpos] loop of [_siftup]: the smaller child
    moves up until the hole is at a leaf.  Returns the list and the final
    [pos]. *)
Fixpoint siftup_loop (fuel : nat) (heap : list HeapItem)
    (endpos pos : nat) : list HeapItem * nat :=
  match fuel with
  | O => (heap, pos)
  | S fuel' =>
    let childpos := (2 * pos + 1)%nat in
    if decide (childpos < endpos)%nat then
      let rightpos := (childpos + 1)%nat in
      let childpos :=
        if decide (rightpos < endpos)%nat then
          if negb (item_lt (heap !!! childpos) (heap !!! rightpos))
          then rightpos else childpos
        else childpos in
      siftup_loop fuel' (<[pos := heap !!! childpos]> heap) endpos childpos
    else (heap, pos)
  end.

Definition _siftup (heap : list HeapItem) (pos : nat) : list HeapItem :=
  let endpos := length heap in
  let startpos := pos in
  let newitem := heap !!! pos in
  let '(heap, pos) := siftup_loop endpos heap endpos pos in
  _siftdown (<[pos := newitem]> heap) startpos pos.

(** [heapq.heappush(heap, item)] *)
Definition heappush (heap : list HeapItem) (item : HeapItem)
    : list HeapItem :=
  let heap := heap ++ [item] in
  _siftdown heap 0 (length heap - 1).

(** [heapq.heappop(heap)]: [None] stands for the IndexError on an empty
    list. *)
Definition heappop (heap : list HeapItem)
    : option (HeapItem * list HeapItem) :=
  match last heap with
  | None => None
  | Some lastelt =>
    let heap := removelast heap in
    match heap with
    | [] => Some (lastelt, heap)
    | returnitem :: _ => Some (returnitem, _siftup (<[0%nat := lastelt]> heap) 0)
    end
  end.

End heapq.

(** ** The priority queue seen by [Graph.dijkstra]

    The loop only needs a list literal with one item, [heappush] and
    [heappop]; [PriorityQueue] is that interface and [HeapLaws] is the
    contract of [heapq] the correctness argument relies on. *)

Class PriorityQueue := {
  heap_t : Type;
  (** the items held, in storage order *)
  heap_items : heap_t → list HeapItem;
  (** the heap invariant of the representation *)
  heap_inv : heap_t → Prop;
  (** the list literal [[item]] *)
  heap_single : HeapItem → heap_t;
  heappush : heap_t → HeapItem → heap_t;
  heappop : heap_t → option (HeapItem * heap_t)
}.

Class HeapLaws (Q : PriorityQueue) : Prop := {
  heap_single_inv x : heap_inv (heap_single x);
  heap_single_items x : heap_items (heap_single x) = [x];
  heappush_inv h x : heap_inv h → heap_inv (heappush h x);
  heappush_items h x :
    heap_inv h → heap_items (heappush h x) ≡ₚ x :: heap_items h;
  heappop_empty h : heappop h = None ↔ heap_items h = [];
  heappop_inv h x h' : heap_inv h → heappop h = Some (x, h') → heap_inv h';
  heappop_items h x h' :
    heap_inv h → heappop h = Some (x, h') →
    heap_items h ≡ₚ x :: heap_items h';
  heappop_min h x h' :
    heap_inv h → heappop h = Some (x, h') →
    ∀ y, y ∈ heap_items h' → item_lt y x = false
}.

(** ** Results of a call: a value, a raised [KeyError], or no return. *)

Inductive result (A : Type) :=
  | Ok (a : A)
  | KeyError (key : string)
  | Diverges.
Arguments Ok {A} a.
Arguments KeyError {A} key.
Arguments Diverges {A}.

(** ** Graph

    [adjacency] is a dict from node to the list of its [(neighbor, weight)]
    entries; the order of its keys plays no role in [dijkstra] and
    [shortest_path], the order within each list does. *)

Record Graph := mkGraph {
  adjacency : gmap string (list (string * Z))
}.

(** [Graph()] *)
Definition Graph_init : Graph := mkGraph ∅.

(** [adjacency.setdefault(key, []).append(entry)] *)
Definition setdefault_append (adj : gmap string (list (string * Z)))
    (key : string) (entry : string * Z) : gmap string (list (string * Z)) :=
  <[key := default [] (adj !! key) ++ [entry]]> adj.

Definition add_edge (self : Graph) (source target : string) (weight : Z)
    (bidirectional : bool) : Graph :=
  let adj := setdefault_append (adjacency self) source (target, weight) in
  let adj :=
    if bidirectional then setdefault_append adj target (source, weight)
    else adj in
  mkGraph adj.

(** [self.adjacency.get(node, [])] *)
Definition neighbors (self : Graph) (n : string) : list (string * Z) :=
  default [] (adjacency self !! n).

(** The pair [(distances, previous_nodes)] returned by [dijkstra]. *)
Definition tables : Type :=
  gmap string dist * gmap string (option string).

Section Dijkstra.
Context {Q : PriorityQueue}.

(** Where the run stands: at the test of [while heap], or inside the
    [for neighbor, weight in ...] loop of [current_node] with the edges
    still to be looked at. *)
Inductive position :=
  | AtWhile
  | InFor (current_node : string) (rest : list (string * Z)).

Record config := mkConfig {
  distances : gmap string dist;
  previous_nodes : gmap string (option string);
  heap : heap_t;
  visited_nodes : gset string;
  pos : position
}.

Inductive outcome :=
  | Next (c : config)
  | Return (r : tables)
  | Raise (key : string).

(** Lines 25-29 of task_3.py. *)
Definition dijkstra_init (self : Graph) (start : string) : config :=
  let distances := (λ _, Inf) <$> adjacency self in
  let previous_nodes := (λ _, None) <$> adjacency self in
  let distances := <[start := Fin 0]> distances in
  mkConfig distances previous_nodes
    (heap_single (mkHeapItem (Fin 0) start)) ∅ AtWhile.

(** One step of lines 31-45.  At [AtWhile] the step is the test of
    [while heap] (an empty heap ends the loop and line 45 returns), the
    [heappop] of line 32 and the [visited_nodes] test of lines 34-36.  At
    [InFor] it is one round of the [for] loop, lines 39-43; a subscript on a
    missing key raises. *)
Definition step (self : Graph) (c : config) : outcome :=
  match pos c with
  | AtWhile =>
    match heappop (heap c) with
    | None => Return (distances c, previous_nodes c)
    | Some (current_item, heap') =>
      let current_node := node current_item in
      if decide (current_node ∈ visited_nodes c) then
        (* continue *)
        Next (mkConfig (distances c) (previous_nodes c) heap'
                (visited_nodes c) AtWhile)
      else
        Next (mkConfig (distances c) (previous_nodes c) heap'
                ({[current_node]} ∪ visited_nodes c)
                (InFor current_node (neighbors self current_node)))
    end
  | InFor current_node [] =>
    Next (mkConfig (distances c) (previous_nodes c) (heap c)
            (visited_nodes c) AtWhile)
  | InFor current_node ((neighbor, weight) :: rest) =>
    match distances c !! current_node with
    | None => Raise current_node
    | Some d_current =>
      let new_distance := dist_add d_current weight in
      match distances c !! neighbor with
      | None => Raise neighbor
      | Some d_neighbor =>
        if dist_ltb new_distance d_neighbor then
          Next (mkConfig (<[neighbor := new_distance]> (distances c))
                  (<[neighbor := Some current_node]> (previous_nodes c))
                  (heappush (heap c) (mkHeapItem new_distance neighbor))
                  (visited_nodes c)
                  (InFor current_node rest))
        else
          Next (mkConfig (distances c) (previous_nodes c) (heap c)
                  (visited_nodes c) (InFor current_node rest))
      end
    end
  end.

Fixpoint run (fuel : nat) (self : Graph) (c : config) : result tables :=
  match fuel with
  | O => Diverges
  | S fuel' =>
    match step self c with
    | Next c' => run fuel' self c'
    | Return r => Ok r
    | Raise key => KeyError key
    end
  end.

(** Number of [(neighbor, weight)] entries of the nodes outside [seen]. *)
Definition pending_edges (self : Graph) (seen : gset string) : nat :=
  map_fold (λ n l acc, if decide (n ∈ seen) then acc else (length l + acc)%nat)
    0%nat (adjacency self).

(** Every step lowers [steps_left], which starts at [3 * pending + 2]: this
    many steps are enough for any run ([dijkstra_not_Diverges]), and more
    would change nothing ([run_fuel_mono]). *)
Definition dijkstra_fuel (self : Graph) : nat :=
  (3 * pending_edges self ∅ + 3)%nat.

Definition dijkstra (self : Graph) (start : string) : result tables :=
  run (dijkstra_fuel self) self (dijkstra_init self start).

(** The [while current_node is not None] loop of [shortest_path]. *)
Fixpoint backtrack (fuel : nat) (previous_nodes : gmap string (option string))
    (current_node : option string) (path : list string)
    : result (list string) :=
  match current_node with
  | None => Ok path
  | Some n =>
    match fuel with
    | O => Diverges
    | S fuel' =>
      match previous_nodes !! n with
      | None => KeyError n
      | Some previous => backtrack fuel' previous_nodes previous (path ++ [n])
      end
    end
  end.

(** Lines 49-58.  A backward walk that takes more steps than
    [previous_nodes] has entries has entered a cycle and never ends, which
    is what [Diverges] stands for. *)
Definition shortest_path (self : Graph) (start end_node : string)
    : result (list string) :=
  match dijkstra self start with
  | Ok (distances, previous_nodes) =>
    if decide (default Inf (distances !! end_node) = Inf) then Ok []
    else
      match backtrack (S (size previous_nodes)) previous_nodes
              (Some end_node) [] with
      | Ok path => Ok (reverse path)
      | KeyError key => KeyError key
      | Diverges => Diverges
      end
  | KeyError key => KeyError key
  | Diverges => Diverges
  end.

End Dijkstra.

(** ** Python's [heapq] as the priority queue *)

(** No item is smaller than the item at its parent position. *)
Definition heap_ordered (l : list HeapItem) : Prop :=
  ∀ i c x y, (c = 2 * i + 1 ∨ c = 2 * i + 2)%nat →
    l !! i = Some x → l !! c = Some y → item_lt y x = false.

#[global] Instance python_heapq : PriorityQueue := {|
  heap_t := list HeapItem;
  heap_items := id;
  heap_inv := heap_ordered;
  heap_single x := [x];
  heappush := heapq.heappush;
  heappop := heapq.heappop
|}.

(** ** GraphDemo *)

Definition demo_edges : list (string * string * Z) :=
  [("A", "B", 4); ("A", "C", 2); ("B", "C", 5); ("B", "D", 10);
   ("C", "E", 3); ("E", "D", 4); ("D", "F", 11)].

Definition _load_edges (graph : Graph) : Graph :=
  foldl (λ g '(source, target, weight), add_edge g source target weight true)
    graph demo_edges.

Definition demo_graph : Graph := _load_edges Graph_init.

(** ** The heap invariant of [heapq], position by position *)

(** [c] is a child position of [i] in the array layout of the heap. *)
Definition child_of (i c : nat) : Prop :=
  (c = 2 * i + 1 ∨ c = 2 * i + 2)%nat.

(** [heap_ordered] read with total lookups. *)
Definition ordered (l : list HeapItem) : Prop :=
  ∀ i c, child_of i c → (c < length l)%nat →
    item_lt (l !!! c) (l !!! i) = false.

(** The state of [_siftdown] while [newitem] is held out of the list. *)
Record sd_inv (l : list HeapItem) (pos : nat) (newitem : HeapItem) : Prop := {
  sd_pos : (pos < length l)%nat;
  sd_rest : ∀ i c, child_of i c → (c < length l)%nat → c ≠ pos →
    item_lt (l !!! c) (l !!! i) = false;
  sd_below : ∀ c, child_of pos c → (c < length l)%nat →
    item_lt (l !!! c) newitem = false;
  sd_skip : ∀ p c, child_of p pos → child_of pos c → (c < length l)%nat →
    item_lt (l !!! c) (l !!! p) = false
}.

(** The state of the first loop of [_siftup]: the hole is at [pos]. *)
Record su_inv (l : list HeapItem) (pos : nat) : Prop := {
  su_pos : (pos < length l)%nat;
  su_rest : ∀ i c, child_of i c → (c < length l)%nat → i ≠ pos → c ≠ pos →
    item_lt (l !!! c) (l !!! i) = false;
  su_skip : ∀ p c, child_of p pos → child_of pos c → (c < length l)%nat →
    item_lt (l !!! c) (l !!! p) = false
}.

(** ** Walks, paths and shortest distances in a graph *)

(** [(target, weight)] is listed under [source]. *)
Definition edge (self : Graph) (source target : string) (weight : Z) : Prop :=
  (target, weight) ∈ neighbors self source.

Definition nonneg_weights (self : Graph) : Prop :=
  ∀ u v w, edge self u v w → 0 <= w.

(** Every neighbor target is a key of the adjacency map as well. *)
Definition targets_are_keys (self : Graph) : Prop :=
  ∀ u v w, edge self u v w → v ∈ dom (adjacency self).

(** [walk self s v W]: some sequence of edges leads from [s] to [v] and its
    weights add up to [W]. *)
Inductive walk (self : Graph) (s : string) : string → Z → Prop :=
  | walk_here : walk self s s 0
  | walk_edge u v w W :
      walk self s u W → edge self u v w → walk self s v (W + w).

(** [n] is the weight of a lightest walk from [s] to [v]. *)
Definition shortest (self : Graph) (s v : string) (n : Z) : Prop :=
  walk self s v n ∧ ∀ m, walk self s v m → n <= m.

(** [path_weight self p W]: consecutive nodes of the non-empty list [p] are
    joined by edges whose weights add up to [W]. *)
Inductive path_weight (self : Graph) : list string → Z → Prop :=
  | path_single v : path_weight self [v] 0
  | path_cons u v p w W :
      edge self u v w → path_weight self (v :: p) W →
      path_weight self (u :: v :: p) (w + W).

(** Following [previous_nodes] from [v] leads to [start] along [p], read
    from [start] to [v]. *)
Inductive rooted (previous_nodes : gmap string (option string))
    (start : string) : string → list string → Prop :=
  | rooted_start : rooted previous_nodes start start [start]
  | rooted_step v u p :
      v ≠ start → previous_nodes !! v = Some (Some u) →
      rooted previous_nodes start u p →
      rooted previous_nodes start v (p ++ [v]).

Section Invariants.
Context {Q : PriorityQueue}.

(** ** Runs of [dijkstra] *)

Definition step_to (self : Graph) (c c' : config) : Prop :=
  step self c = Next c'.

(** The configurations a call [self.dijkstra(start)] goes through. *)
Definition reachable (self : Graph) (start : string) (c : config) : Prop :=
  rtc (step_to self) (dijkstra_init self start) c.

(** The measure behind [dijkstra_fuel]. *)
Definition position_cost (p : position) : nat :=
  match p with
  | AtWhile => 0
  | InFor _ rest => 3 * length rest + 1
  end.

Definition steps_left (self : Graph) (c : config) : nat :=
  (2 * length (heap_items (heap c))
   + 3 * pending_edges self (visited_nodes c)
   + position_cost (pos c))%nat.

(** The entries of [u] the [for] loop has already gone through. *)
Definition processed (self : Graph) (p : position) (u : string)
    (e : string * Z) : Prop :=
  match p with
  | AtWhile => e ∈ neighbors self u
  | InFor current_node rest =>
    if decide (u = current_node) then
      ∃ done, neighbors self u = done ++ rest ∧ e ∈ done
    else e ∈ neighbors self u
  end.

(** What holds of every configuration of a run, whatever the weights. *)
Record config_wf (self : Graph) (start : string) (c : config) : Prop := {
  wf_heap : heap_inv (heap c);
  wf_dom_distances :
    dom (distances c) = {[start]} ∪ dom (adjacency self);
  wf_items : ∀ x, x ∈ heap_items (heap c) → node x ∈ dom (distances c);
  wf_pos : match pos c with
           | AtWhile => True
           | InFor u rest =>
             u ∈ dom (distances c) ∧ u ∈ visited_nodes c ∧
             ∃ done, neighbors self u = done ++ rest
           end
}.

(** The invariant of Dijkstra's algorithm with a lazy-deletion heap, for
    non-negative weights. *)
Record dijkstra_inv (self : Graph) (start : string) (c : config) : Prop := {
  inv_wf : config_wf self start c;
  inv_start : distances c !! start = Some (Fin 0);
  inv_dom_previous : dom (previous_nodes c) = dom (adjacency self);
  inv_walk : ∀ v n, distances c !! v = Some (Fin n) → walk self start v n;
  inv_visited : ∀ v, v ∈ visited_nodes c →
    ∃ n, distances c !! v = Some (Fin n) ∧ ∀ m, walk self start v m → n <= m;
  inv_items : ∀ x, x ∈ heap_items (heap c) →
    ∃ n d, distance x = Fin n ∧ distances c !! node x = Some d ∧
           dist_le d (Fin n);
  inv_frontier : ∀ v n, distances c !! v = Some (Fin n) →
    v ∉ visited_nodes c → mkHeapItem (Fin n) v ∈ heap_items (heap c);
  inv_visited_heap : ∀ v d x, v ∈ visited_nodes c →
    distances c !! v = Some d → x ∈ heap_items (heap c) →
    dist_le d (distance x);
  inv_processed : ∀ u v w, u ∈ visited_nodes c →
    processed self (pos c) u (v, w) →
    ∃ du dv, distances c !! u = Some du ∧ distances c !! v = Some dv ∧
             dist_le dv (dist_add du w);
  inv_current : match pos c with
                | AtWhile => True
                | InFor u _ =>
                  ∀ v d du, v ∈ visited_nodes c →
                    distances c !! v = Some d → distances c !! u = Some du →
                    dist_le d du
                end;
  inv_previous : ∀ v u, previous_nodes c !! v = Some (Some u) →
    u ∈ visited_nodes c ∧ v ≠ start ∧
    ∃ w du, edge self u v w ∧ distances c !! u = Some (Fin du) ∧
            distances c !! v = Some (Fin (du + w));
  inv_has_previous : ∀ v n, distances c !! v = Some (Fin n) → v ≠ start →
    ∃ u, previous_nodes c !! v = Some (Some u);
  inv_no_previous : ∀ v, distances c !! v = Some Inf → v ≠ start →
    previous_nodes c !! v = Some None;
  inv_rooted : ∀ v, v ∈ visited_nodes c →
    ∃ p, rooted (previous_nodes c) start v p ∧ NoDup p ∧
         ∀ x, x ∈ p → x ∈ visited_nodes c
}.

End Invariants.

(** ** Checks on a concrete graph *)

Definition nonneg_weightsb (self : Graph) : bool :=
  bool_decide (map_Forall (λ _ l, Forall (λ e : string * Z, 0 <= e.2) l)
                 (adjacency self)).

Definition targets_are_keysb (self : Graph) : bool :=
  bool_decide (map_Forall
                 (λ _ l, Forall (λ e : string * Z, e.1 ∈ dom (adjacency self)) l)
                 (adjacency self)).

Section Calls.
Context {Q : PriorityQueue}.

(** The configuration after [n] steps (or the last one of the run). *)
Fixpoint config_after (n : nat) (self : Graph) (c : config) : config :=
  match n with
  | O => c
  | S n' =>
    match step self c with
    | Next c' => config_after n' self c'
    | _ => c
    end
  end.

(** [runs_to self c r]: the run from [c] ends with [r], however many steps
    it takes. *)
Inductive runs_to (self : Graph) : config → result tables → Prop :=
  | runs_return c t : step self c = Return t → runs_to self c (Ok t)
  | runs_raise c key : step self c = Raise key → runs_to self c (KeyError key)
  | runs_next c c' r :
      step self c = Next c' → runs_to self c' r → runs_to self c r.

(** One call [self.dijkstra(start)] with result [r]. *)
Definition dijkstra_call (self : Graph) (start : string) (r : result tables)
    : Prop :=
  runs_to self (dijkstra_init self start) r.

End Calls.

(** The tables [GraphDemo.run] prints from, and a graph with one directed
    edge, as [add_edge] builds it without [bidirectional]. *)
Definition demo_distances : gmap string dist :=
  list_to_map [("A", Fin 0); ("B", Fin 4); ("C", Fin 2); ("D", Fin 9);
               ("E", Fin 5); ("F", Fin 20)].

Definition demo_previous_nodes : gmap string (option string) :=
  list_to_map [("A", None); ("B", Some "A"); ("C", Some "A");
               ("D", Some "E"); ("E", Some "C"); ("F", Some "D")].

Definition one_way_graph : Graph := add_edge Graph_init "A" "B" 1 false.

(** ** Graphs built edge by edge *)

(** The loop of lines 78-79 over any list of edges: each one is added with
    [bidirectional=True]. *)
Definition load_edges (edges : list (string * string * Z)) (graph : Graph)
    : Graph :=
  foldl (λ g '(source, target, weight), add_edge g source target weight true)
    graph edges.

(** Every edge has its mirror image. *)
Definition symmetric_edges (self : Graph) : Prop :=
  ∀ u v w, edge self u v w → edge self v u w.

(** [distances.get(node, float("inf"))], as line 50 reads the table. *)
Definition distance_of (d : gmap string dist) (n : string) : dist :=
  default Inf (d !! n).

(** Number of [(neighbor, weight)] entries of the whole graph. *)
Definition edge_count (self : Graph) : nat := pending_edges self ∅.

(** The heap items of a configuration together with the entries that may
    still push one. *)
Definition heap_budget {Q : PriorityQueue} (self : Graph) (c : config) : nat :=
  (length (heap_items (heap c))
   + pending_edges self (visited_nodes c)
   + match pos c with
     | AtWhile => 0
     | InFor _ rest => length rest
     end)%nat.

(** ** Method calls on the [Graph] object

    A method runs on the object [self] and leaves the object behind for the
    next call: a call is a function from the object before it to the object
    after it and the value returned. *)

Definition method (A : Type) : Type := Graph → Graph * A.

#[global] Instance method_ret : MRet method := λ A a self, (self, a).

#[global] Instance method_bind : MBind method :=
  λ A B k m self, let '(self', a) := m self in k a self'.

(** [self.adjacency], read as a whole: lines 25 and 26 go through its keys. *)
Definition read_adjacency : method (gmap string (list (string * Z))) :=
  λ self, (self, adjacency self).

(** [self.adjacency.get(node, [])], line 38: a lookup; unlike the
    [setdefault] of [add_edge] it adds no key. *)
Definition adjacency_get (n : string) : method (list (string * Z)) :=
  λ self, (self, neighbors self n).

(** [self.add_edge(source, target, weight, bidirectional)] *)
Definition Graph_add_edge (source target : string) (weight : Z)
    (bidirectional : bool) : method unit :=
  λ self, (add_edge self source target weight bidirectional, tt).

Section Methods.
Context {Q : PriorityQueue}.

(** Lines 25-29, on the object. *)
Definition init_call (start : string) : method config :=
  adj ← read_adjacency;
  mret (mkConfig (<[start := Fin 0]> ((λ _, Inf) <$> adj))
          ((λ _, None) <$> adj)
          (heap_single (mkHeapItem (Fin 0) start)) ∅ AtWhile).

(** One step of lines 31-45, on the object: the only access to [self] is
    the lookup of line 38. *)
Definition step_call (c : config) : method outcome :=
  match pos c with
  | AtWhile =>
    match heappop (heap c) with
    | None => mret (Return (distances c, previous_nodes c))
    | Some (current_item, heap') =>
      let current_node := node current_item in
      if decide (current_node ∈ visited_nodes c) then
        mret (Next (mkConfig (distances c) (previous_nodes c) heap'
                      (visited_nodes c) AtWhile))
      else
        entries ← adjacency_get current_node;
        mret (Next (mkConfig (distances c) (previous_nodes c) heap'
                      ({[current_node]} ∪ visited_nodes c)
                      (InFor current_node entries)))
    end
  | InFor current_node [] =>
    mret (Next (mkConfig (distances c) (previous_nodes c) (heap c)
                  (visited_nodes c) AtWhile))
  | InFor current_node ((neighbor, weight) :: rest) =>
    match distances c !! current_node with
    | None => mret (Raise current_node)
    | Some d_current =>
      let new_distance := dist_add d_current weight in
      match distances c !! neighbor with
      | None => mret (Raise neighbor)
      | Some d_neighbor =>
        if dist_ltb new_distance d_neighbor then
          mret (Next (mkConfig (<[neighbor := new_distance]> (distances c))
                        (<[neighbor := Some current_node]> (previous_nodes c))
                        (heappush (heap c) (mkHeapItem new_distance neighbor))
                        (visited_nodes c)
                        (InFor current_node rest)))
        else
          mret (Next (mkConfig (distances c) (previous_nodes c) (heap c)
                        (visited_nodes c) (InFor current_node rest)))
      end
    end
  end.

Fixpoint run_call (fuel : nat) (c : config) : method (result tables) :=
  match fuel with
  | O => mret Diverges
  | S fuel' =>
    o ← step_call c;
    match o with
    | Next c' => run_call fuel' c'
    | Return r => mret (Ok r)
    | Raise key => mret (KeyError key)
    end
  end.

(** [self.dijkstra(start)] *)
Definition Graph_dijkstra (start : string) : method (result tables) :=
  adj ← read_adjacency;
  c ← init_call start;
  run_call (dijkstra_fuel (mkGraph adj)) c.

End Methods.

(* ================================================================= *)
(** * Properties *)

(** * The order on distances and heap items *)

Lemma dist_ltb_irrefl d : dist_ltb d d = false.
Proof. destruct d; simpl; [|done]. apply bool_decide_eq_false. lia. Qed.

Lemma dist_ltb_false_le a b : dist_ltb b a = false ↔ dist_le a b.
Proof.
  destruct a, b; simpl; try done.
  rewrite bool_decide_eq_false. lia.
Qed.

Lemma dist_ltb_true_lt a b :
  dist_ltb a b = true ↔ ∃ n, a = Fin n ∧ ∀ m, b = Fin m → n < m.
Proof.
  destruct a as [n|], b as [m|]; simpl.
  - rewrite bool_decide_eq_true. split.
    + intros Hlt. exists n. split; [done|]. intros ? [= <-]. done.
    + intros (? & [= <-] & H). by apply H.
  - split; [|done]. intros _. exists n. by split.
  - split; [done|]. by intros (? & ? & _).
  - split; [done|]. by intros (? & ? & _).
Qed.

Lemma dist_le_refl a : dist_le a a.
Proof. destruct a; simpl; lia. Qed.

Lemma dist_le_trans a b c : dist_le a b → dist_le b c → dist_le a c.
Proof. destruct a, b, c; simpl; try done. lia. Qed.

Lemma item_lt_irrefl x : item_lt x x = false.
Proof. apply dist_ltb_irrefl. Qed.

Lemma item_le_trans x y z :
  item_lt y x = false → item_lt z y = false → item_lt z x = false.
Proof.
  unfold item_lt. rewrite !dist_ltb_false_le. apply dist_le_trans.
Qed.

Lemma item_lt_le x y : item_lt x y = true → item_lt y x = false.
Proof.
  unfold item_lt. rewrite dist_ltb_false_le.
  destruct (distance x), (distance y); simpl; try done.
  rewrite bool_decide_eq_true. lia.
Qed.

(** * Python's [heapq] meets [HeapLaws] *)

(** [heappush] and [heappop] on small heaps, as CPython computes them. *)
Example heappush_example :
  heapq.heappush
    [mkHeapItem (Fin 1) "a"; mkHeapItem (Fin 3) "b"; mkHeapItem (Fin 5) "c"]
    (mkHeapItem (Fin 0) "d")
  = [mkHeapItem (Fin 0) "d"; mkHeapItem (Fin 1) "a"; mkHeapItem (Fin 5) "c";
     mkHeapItem (Fin 3) "b"].
Proof. reflexivity. Qed.

Example heappop_example :
  heapq.heappop
    [mkHeapItem (Fin 0) "d"; mkHeapItem (Fin 1) "a"; mkHeapItem (Fin 5) "c";
     mkHeapItem (Fin 3) "b"]
  = Some (mkHeapItem (Fin 0) "d",
          [mkHeapItem (Fin 1) "a"; mkHeapItem (Fin 3) "b";
           mkHeapItem (Fin 5) "c"]).
Proof. reflexivity. Qed.

(** Equal distances: the item pushed later stays behind, whatever its
    node. *)
Example heappush_tie_example :
  heapq.heappush [mkHeapItem (Fin 2) "z"] (mkHeapItem (Fin 2) "a")
  = [mkHeapItem (Fin 2) "z"; mkHeapItem (Fin 2) "a"].
Proof. reflexivity. Qed.

Section heapq_laws.
Local Open Scope nat_scope.
Implicit Types (l : list HeapItem) (x y z : HeapItem).

Lemma child_of_parent c : 0 < c → child_of ((c - 1) / 2) c.
Proof.
  intros Hc. unfold child_of.
  pose proof (Nat.div_mod_eq (c - 1) 2).
  pose proof (Nat.mod_upper_bound (c - 1) 2). lia.
Qed.

Lemma child_of_inj i j c : child_of i c → child_of j c → i = j.
Proof. unfold child_of. lia. Qed.

Lemma child_of_lt i c : child_of i c → i < c.
Proof. unfold child_of. lia. Qed.

Lemma heap_ordered_ordered l : heap_ordered l ↔ ordered l.
Proof.
  split.
  - intros H i c Hic Hc.
    assert (i < length l) as Hi by (apply child_of_lt in Hic; lia).
    apply (H i c); [done| |]; by apply list_lookup_lookup_total_lt.
  - intros H i c x y Hic Hx Hy.
    apply list_lookup_total_correct in Hx as <-.
    pose proof (lookup_lt_Some _ _ _ Hy).
    apply list_lookup_total_correct in Hy as <-. by apply H.
Qed.

Lemma ordered_root_min l i :
  ordered l → i < length l → item_lt (l !!! i) (l !!! 0) = false.
Proof.
  intros Hl. induction (lt_wf i) as [i _ IH]. intros Hi.
  destruct (decide (i = 0)) as [->|Hne]; [apply item_lt_irrefl|].
  pose proof (child_of_parent i ltac:(lia)) as Hp.
  pose proof (child_of_lt _ _ Hp).
  apply (item_le_trans _ (l !!! ((i - 1) / 2))); [apply IH; lia|].
  by apply Hl.
Qed.

(** Writing [x] at [i] after having copied the old [l !!! i] to [j] only
    moves items around. *)
Lemma insert_at_Permutation {A} (l : list A) (i : nat) (u v : A) :
  l !! i = Some v → <[i:=u]> l ≡ₚ u :: delete i l.
Proof.
  revert i. induction l as [|a l IH]; intros [|i] Hi; simplify_eq/=; [done|].
  rewrite (IH _ Hi). apply Permutation_swap.
Qed.

Lemma insert_swap_Permutation {A} (l : list A) (i j : nat) (u v : A) :
  l !! i = Some v → i ≠ j → j < length l →
  <[i:=u]> (<[j:=v]> l) ≡ₚ <[j:=u]> l.
Proof.
  revert i j. induction l as [|a l IH]; intros [|i] [|j] Hi Hne Hj;
    simplify_eq/=; try lia.
  - destruct (lookup_lt_is_Some_2 l j ltac:(lia)) as [z Hz].
    rewrite !(insert_at_Permutation l j _ z) by done. apply Permutation_swap.
  - rewrite (insert_at_Permutation l i u v) by done.
    rewrite (delete_Permutation l i v) at 2 by done. apply Permutation_swap.
  - f_equiv. apply IH; [done|congruence|lia].
Qed.

Lemma sd_inv_close l pos newitem :
  sd_inv l pos newitem →
  (0 < pos → item_lt newitem (l !!! ((pos - 1) / 2)) = false) →
  ordered (<[pos:=newitem]> l).
Proof.
  intros [Hpos Hrest Hbelow Hskip] Hup i c Hic. rewrite length_insert.
  intros Hc. pose proof (child_of_lt _ _ Hic).
  destruct (decide (c = pos)) as [->|Hcp].
  - rewrite list_lookup_total_insert_eq by done.
    rewrite list_lookup_total_insert_ne by lia.
    rewrite (child_of_inj _ _ _ Hic (child_of_parent pos ltac:(lia))).
    apply Hup. lia.
  - rewrite (list_lookup_total_insert_ne _ pos c) by done.
    destruct (decide (i = pos)) as [->|Hip].
    + rewrite list_lookup_total_insert_eq by done. by apply Hbelow.
    + rewrite list_lookup_total_insert_ne by done. by apply Hrest.
Qed.

Lemma sd_inv_step l pos newitem :
  sd_inv l pos newitem → 0 < pos →
  item_lt newitem (l !!! ((pos - 1) / 2)) = true →
  sd_inv (<[pos := l !!! ((pos - 1) / 2)]> l) ((pos - 1) / 2) newitem.
Proof.
  intros [Hpos Hrest Hbelow Hskip] H0 Hlt.
  pose proof (child_of_parent pos H0) as Hp.
  pose proof (child_of_lt _ _ Hp) as Hplt.
  set (pp := (pos - 1) / 2) in *.
  split.
  - rewrite length_insert. lia.
  - intros i c Hic. rewrite length_insert. intros Hc Hcp.
    pose proof (child_of_lt _ _ Hic).
    destruct (decide (c = pos)) as [->|Hcpos].
    + rewrite list_lookup_total_insert_eq by done.
      rewrite list_lookup_total_insert_ne by lia.
      rewrite (child_of_inj _ _ _ Hic Hp). apply item_lt_irrefl.
    + rewrite (list_lookup_total_insert_ne _ pos c) by done.
      destruct (decide (i = pos)) as [->|Hip].
      * rewrite list_lookup_total_insert_eq by done. by apply Hskip.
      * rewrite list_lookup_total_insert_ne by done. by apply Hrest.
  - intros c Hc. rewrite length_insert. intros Hlen.
    destruct (decide (c = pos)) as [->|Hcpos].
    + rewrite list_lookup_total_insert_eq by done. by apply item_lt_le.
    + rewrite list_lookup_total_insert_ne by done.
      eapply item_le_trans; [by apply item_lt_le|]. by apply Hrest.
  - intros p c Hpc Hc. rewrite length_insert. intros Hlen.
    pose proof (child_of_lt _ _ Hpc).
    rewrite (list_lookup_total_insert_ne _ pos p) by lia.
    assert (item_lt (l !!! pp) (l !!! p) = false) as Hppp.
    { apply Hrest; [done|lia|lia]. }
    destruct (decide (c = pos)) as [->|Hcpos].
    + by rewrite list_lookup_total_insert_eq.
    + rewrite list_lookup_total_insert_ne by done.
      eapply item_le_trans; [exact Hppp|]. by apply Hrest.
Qed.

Lemma siftdown_loop_ordered fuel l pos newitem :
  pos ≤ fuel → sd_inv l pos newitem →
  ordered (heapq.siftdown_loop fuel l 0 pos newitem).
Proof.
  revert l pos. induction fuel as [|fuel IH]; intros l pos Hfuel Hinv;
    cbn [heapq.siftdown_loop].
  - apply sd_inv_close; [done|lia].
  - case_decide as H0; [|apply sd_inv_close; [done|lia]].
    destruct (item_lt newitem _) eqn:Hlt.
    + pose proof (child_of_lt _ _ (child_of_parent pos H0)).
      apply IH; [lia|]. by apply sd_inv_step.
    + by apply sd_inv_close.
Qed.

Lemma siftdown_loop_Permutation fuel l pos newitem :
  pos < length l →
  heapq.siftdown_loop fuel l 0 pos newitem ≡ₚ <[pos:=newitem]> l.
Proof.
  revert l pos. induction fuel as [|fuel IH]; intros l pos Hpos;
    cbn [heapq.siftdown_loop]; [done|].
  case_decide as H0; [|done].
  destruct (item_lt newitem _) eqn:Hlt; [|done].
  pose proof (child_of_lt _ _ (child_of_parent pos H0)).
  rewrite IH by (rewrite length_insert; lia).
  apply insert_swap_Permutation; [|lia|done].
  apply list_lookup_lookup_total_lt. lia.
Qed.

Lemma su_inv_step l pos c :
  su_inv l pos → child_of pos c → c < length l →
  (∀ c', child_of pos c' → c' < length l →
     item_lt (l !!! c') (l !!! c) = false) →
  su_inv (<[pos := l !!! c]> l) c.
Proof.
  intros [Hpos Hrest Hskip] Hc Hlen Hmin.
  pose proof (child_of_lt _ _ Hc).
  split.
  - by rewrite length_insert.
  - intros i c0 Hic0. rewrite length_insert. intros Hc0 Hi Hc0c.
    pose proof (child_of_lt _ _ Hic0).
    destruct (decide (i = pos)) as [->|Hip].
    + rewrite list_lookup_total_insert_eq by done.
      rewrite list_lookup_total_insert_ne by lia. by apply Hmin.
    + rewrite (list_lookup_total_insert_ne _ pos i) by done.
      destruct (decide (c0 = pos)) as [->|Hc0p].
      * rewrite list_lookup_total_insert_eq by done. by apply Hskip.
      * rewrite list_lookup_total_insert_ne by done. by apply Hrest.
  - intros p gc Hp Hgc. rewrite length_insert. intros Hgclen.
    pose proof (child_of_lt _ _ Hgc).
    rewrite (child_of_inj _ _ _ Hp Hc).
    rewrite list_lookup_total_insert_eq by done.
    rewrite list_lookup_total_insert_ne by lia.
    apply Hrest; [done|done|lia|lia].
Qed.

Lemma siftup_loop_spec fuel l pos :
  length l ≤ fuel + pos → su_inv l pos →
  ∃ l' pos', heapq.siftup_loop fuel l (length l) pos = (l', pos') ∧
    length l' = length l ∧ su_inv l' pos' ∧ length l' ≤ 2 * pos' + 1 ∧
    ∀ x, <[pos':=x]> l' ≡ₚ <[pos:=x]> l.
Proof.
  revert l pos. induction fuel as [|fuel IH]; intros l pos Hfuel Hinv;
    cbn [heapq.siftup_loop].
  { destruct Hinv. lia. }
  case_decide as Hchild; [|exists l, pos; split_and!; (done || lia)].
  set (c := if decide (2 * pos + 1 + 1 < length l) then _ else _).
  assert (child_of pos c ∧ c < length l ∧
    ∀ c', child_of pos c' → c' < length l →
      item_lt (l !!! c') (l !!! c) = false) as (Hc & Hclen & Hmin).
  { subst c. unfold child_of. case_decide as Hright.
    - destruct (item_lt (l !!! (2 * pos + 1)) _) eqn:Hlt; cbn [negb].
      + split; [lia|]. split; [lia|]. intros c' [->| ->] _.
        * apply item_lt_irrefl.
        * replace (2 * pos + 2) with (2 * pos + 1 + 1) by lia.
          by apply item_lt_le.
      + split; [lia|]. split; [lia|]. intros c' [->| ->] _.
        * done.
        * replace (2 * pos + 2) with (2 * pos + 1 + 1) by lia.
          apply item_lt_irrefl.
    - split; [lia|]. split; [lia|]. intros c' [->| ->] ?; [|lia].
      apply item_lt_irrefl. }
  clearbody c. pose proof (child_of_lt _ _ Hc).
  destruct (IH (<[pos := l !!! c]> l) c) as (l' & pos' & Heq & Hlen & Hinv' & Hleaf & Hperm).
  { rewrite length_insert. lia. }
  { by apply su_inv_step. }
  rewrite length_insert in Heq, Hlen. exists l', pos'.
  split; [done|]. split; [done|]. split; [done|]. split; [done|].
  intros x. rewrite Hperm. apply insert_swap_Permutation; [|lia|by destruct Hinv].
  by apply list_lookup_lookup_total_lt.
Qed.

Lemma _siftup_spec l :
  su_inv l 0 → ordered (heapq._siftup l 0) ∧ heapq._siftup l 0 ≡ₚ l.
Proof.
  intros Hinv. unfold heapq._siftup.
  destruct (siftup_loop_spec (length l) l 0 ltac:(lia) Hinv)
    as (l' & pos' & -> & Hlen & [Hpos Hrest Hskip] & Hleaf & Hperm).
  unfold heapq._siftdown.
  rewrite list_lookup_total_insert_eq by done.
  split.
  - apply siftdown_loop_ordered; [done|]. split.
    + by rewrite length_insert.
    + intros i c Hic. rewrite length_insert. intros Hc Hcp.
      pose proof (child_of_lt _ _ Hic).
      assert (i ≠ pos') by (unfold child_of in Hic; lia).
      rewrite !list_lookup_total_insert_ne by done. by apply Hrest.
    + intros c Hc. rewrite length_insert. unfold child_of in Hc. lia.
    + intros p c _ Hc. rewrite length_insert. unfold child_of in Hc. lia.
  - rewrite siftdown_loop_Permutation by (by rewrite length_insert).
    rewrite list_insert_insert_eq, Hperm.
    rewrite list_insert_id; [done|].
    apply list_lookup_lookup_total_lt. destruct Hinv. lia.
Qed.

Lemma heappush_spec l x :
  heapq.heappush l x ≡ₚ x :: l ∧
  (ordered l → ordered (heapq.heappush l x)).
Proof.
  unfold heapq.heappush, heapq._siftdown.
  rewrite length_app, Nat.add_sub. simpl.
  rewrite list_lookup_total_middle by done.
  split.
  - rewrite siftdown_loop_Permutation by (rewrite length_app; simpl; lia).
    rewrite list_insert_id by (by apply list_lookup_middle).
    by rewrite Permutation_app_comm.
  - intros Hl. apply siftdown_loop_ordered; [done|]. split.
    + rewrite length_app. simpl. lia.
    + intros i c Hic. rewrite length_app. simpl. intros Hc Hcp.
      pose proof (child_of_lt _ _ Hic).
      rewrite !lookup_total_app_l by lia. apply Hl; [done|lia].
    + intros c Hc. rewrite length_app. simpl. unfold child_of in Hc. lia.
    + intros p c _ Hc. rewrite length_app. simpl. unfold child_of in Hc. lia.
Qed.

Lemma heappop_spec l x l' :
  ordered l → heapq.heappop l = Some (x, l') →
  l ≡ₚ x :: l' ∧ ordered l' ∧ ∀ y, y ∈ l' → item_lt y x = false.
Proof.
  intros Hl. unfold heapq.heappop.
  destruct (last l) as [lastelt|] eqn:Hlast; [|done].
  apply last_Some in Hlast as [l0 ->]. rewrite removelast_last.
  destruct l0 as [|returnitem t]; intros [= <- <-].
  { split; [done|]. split; [|by intros ? ?%elem_of_nil].
    intros i c _. simpl. lia. }
  simpl.
  assert (su_inv (lastelt :: t) 0) as Hsu.
  { split.
    - simpl. lia.
    - intros i c Hic Hc Hi Hc0. simpl in Hc.
      destruct i as [|i]; [done|]. destruct c as [|c]; [done|].
      specialize (Hl (S i) (S c) Hic). rewrite length_app in Hl. simpl in Hl.
      pose proof (child_of_lt _ _ Hic).
      rewrite !lookup_total_app_l in Hl by (simpl; lia).
      apply Hl. lia.
    - intros p c Hp. apply child_of_lt in Hp. lia. }
  destruct (_siftup_spec _ Hsu) as [Hord Hperm].
  assert ((returnitem :: t) ++ [lastelt] ≡ₚ
          returnitem :: heapq._siftup (lastelt :: t) 0) as Hall.
  { rewrite Hperm. simpl. f_equiv. by rewrite Permutation_app_comm. }
  split; [done|]. split; [done|].
  intros y Hy.
  assert (y ∈ (returnitem :: t) ++ [lastelt]) as Hin.
  { rewrite Hall. by apply list_elem_of_further. }
  apply list_elem_of_lookup_total in Hin as (i & Hi & <-).
  by apply (ordered_root_min _ i) in Hl.
Qed.

#[global] Instance python_heapq_laws : HeapLaws python_heapq.
Proof.
  split; simpl.
  - intros x i c x0 y Hic [-> ->]%list_lookup_singleton_Some.
    intros [? _]%list_lookup_singleton_Some. lia.
  - done.
  - intros h x. rewrite !heap_ordered_ordered. apply heappush_spec.
  - intros h x _. apply heappush_spec.
  - intros h. unfold heapq.heappop. rewrite <-last_None.
    destruct (last h); [|done]. split; [|done].
    by destruct (removelast h).
  - intros h x h'. rewrite !heap_ordered_ordered. intros Hh Hpop.
    by destruct (heappop_spec _ _ _ Hh Hpop) as (_ & ? & _).
  - intros h x h'. rewrite !heap_ordered_ordered. intros Hh Hpop.
    by destruct (heappop_spec _ _ _ Hh Hpop) as (? & _).
  - intros h x h'. rewrite !heap_ordered_ordered. intros Hh Hpop.
    by destruct (heappop_spec _ _ _ Hh Hpop) as (_ & _ & ?).
Qed.

End heapq_laws.

(** * Runs of [dijkstra]: well-formed configurations and termination *)

Section run_facts.
Context {Q : PriorityQueue} {L : HeapLaws Q}.
Implicit Types (self : Graph) (c : config) (start : string).

Lemma pending_edges_visit self seen u :
  u ∉ seen →
  (pending_edges self ({[u]} ∪ seen) + length (neighbors self u)
   = pending_edges self seen)%nat.
Proof.
  unfold pending_edges, neighbors. intros Hu.
  induction (adjacency self) as [|k l m Hk IH] using map_ind.
  { by rewrite !map_fold_empty, lookup_empty. }
  rewrite !map_fold_insert_L; [| intros; repeat case_decide; lia | done
                               | intros; repeat case_decide; lia | done].
  destruct (decide (k = u)) as [->|Hne].
  - rewrite lookup_insert_eq. rewrite Hk in IH. simpl in *.
    rewrite decide_True by set_solver. rewrite decide_False by done. lia.
  - rewrite lookup_insert_ne by done.
    destruct (decide (k ∈ seen)).
    + rewrite decide_True by set_solver. done.
    + rewrite decide_False by set_solver. lia.
Qed.

Lemma heappop_length (h h' : heap_t) x :
  heap_inv h → heappop h = Some (x, h') →
  length (heap_items h) = S (length (heap_items h')).
Proof. intros Hh Hpop. by rewrite (heappop_items h x h'). Qed.

Lemma heappush_length (h : heap_t) x :
  heap_inv h → length (heap_items (heappush h x)) = S (length (heap_items h)).
Proof. intros Hh. by rewrite (heappush_items h x). Qed.

Lemma step_decreases self start c c' :
  config_wf self start c → step self c = Next c' →
  (steps_left self c' < steps_left self c)%nat.
Proof.
  intros [Hheap _ _ _]. unfold step, steps_left.
  destruct (pos c) as [|u [|[v w] rest]] eqn:Hpos.
  - destruct (heappop (heap c)) as [[x h']|] eqn:Hpop; [|done].
    rewrite (heappop_length _ _ _ Hheap Hpop).
    case_decide as Hvis; intros [= <-]; simpl; [lia|].
    pose proof (pending_edges_visit self _ _ Hvis). lia.
  - intros [= <-]. simpl. lia.
  - destruct (distances c !! u) as [du|]; [|done].
    destruct (distances c !! v) as [dv|]; [|done].
    destruct (dist_ltb _ _); intros [= <-]; simpl; [|lia].
    rewrite heappush_length by done. lia.
Qed.

Lemma config_wf_init self start : config_wf self start (dijkstra_init self start).
Proof.
  split; simpl.
  - apply heap_single_inv.
  - by rewrite dom_insert_L, dom_fmap_L.
  - intros x. rewrite heap_single_items. intros ->%list_elem_of_singleton.
    simpl. rewrite dom_insert_L. set_solver.
  - done.
Qed.

Lemma config_wf_step self start c c' :
  config_wf self start c → step self c = Next c' → config_wf self start c'.
Proof.
  intros [Hheap Hdom Hitems Hpos]. unfold step.
  destruct (pos c) as [|u [|[v w] rest]] eqn:Hp.
  - destruct (heappop (heap c)) as [[x h']|] eqn:Hpop; [|done].
    pose proof (heappop_items _ _ _ Hheap Hpop) as Hperm.
    assert (∀ y, y ∈ heap_items h' → node y ∈ dom (distances c)) as Hitems'.
    { intros y Hy. apply Hitems. rewrite Hperm. by apply list_elem_of_further. }
    case_decide; intros [= <-]; split; simpl; eauto using heappop_inv.
    split; [|split; [set_solver|by exists []]].
    apply Hitems. rewrite Hperm. apply list_elem_of_here.
  - intros [= <-]. by split.
  - destruct Hpos as (Hu & Hvis & done & Hdone).
    destruct (distances c !! u) as [du|]; [|done].
    destruct (distances c !! v) as [dv|] eqn:Hv; [|done].
    assert (∃ done', neighbors self u = done' ++ rest) as Hdone'.
    { exists (done ++ [(v, w)]). by rewrite <-app_assoc. }
    destruct (dist_ltb _ _); intros [= <-]; split; simpl; try done.
    + by apply heappush_inv.
    + rewrite dom_insert_L, <-Hdom. apply elem_of_dom_2 in Hv. set_solver.
    + intros x. rewrite heappush_items by done. rewrite dom_insert_L.
      intros [->|Hx]%elem_of_cons; [set_solver|].
      apply Hitems in Hx. set_solver.
    + rewrite dom_insert_L. split; [set_solver|done].
Qed.

Lemma config_wf_reachable self start c :
  reachable self start c → config_wf self start c.
Proof.
  revert c. apply rtc_ind_r; eauto using config_wf_init, config_wf_step.
Qed.

(** With fuel above [steps_left] a run comes to an end. *)
Lemma run_enough_fuel self start fuel c :
  config_wf self start c → (steps_left self c < fuel)%nat →
  run fuel self c ≠ Diverges.
Proof.
  revert c. induction fuel as [|fuel IH]; intros c Hwf Hfuel; [lia|].
  simpl. destruct (step self c) as [c'| |] eqn:Hstep; [|done..].
  apply IH; [by eapply config_wf_step|].
  pose proof (step_decreases _ _ _ _ Hwf Hstep). lia.
Qed.

Lemma dijkstra_not_Diverges self start : dijkstra self start ≠ Diverges.
Proof.
  apply (run_enough_fuel self start); [apply config_wf_init|].
  unfold steps_left, dijkstra_fuel. simpl. rewrite heap_single_items. simpl. lia.
Qed.

(** A run that returns has reached a configuration at the [while] test with
    an empty heap, and returns the tables of that configuration. *)
Lemma run_Ok self fuel c t :
  run fuel self c = Ok t →
  ∃ c', rtc (step_to self) c c' ∧ pos c' = AtWhile ∧
        heap_items (heap c') = [] ∧ t = (distances c', previous_nodes c').
Proof.
  revert c. induction fuel as [|fuel IH]; intros c; [done|]. simpl.
  destruct (step self c) as [c1|r|] eqn:Hstep; [| |done].
  - intros (c' & Hsteps & Hc')%IH. exists c'. split; [|done].
    by eapply rtc_l.
  - intros [= ->]. exists c. split; [done|]. unfold step in Hstep.
    destruct (pos c) as [|u [|[v w] rest]]; simplify_eq.
    + destruct (heappop (heap c)) as [[x h']|] eqn:Hpop.
      * by case_decide.
      * apply heappop_empty in Hpop. by simplify_eq.
    + by repeat case_match.
Qed.

Lemma run_KeyError self fuel c key :
  run fuel self c = KeyError key →
  ∃ c', rtc (step_to self) c c' ∧ step self c' = Raise key.
Proof.
  revert c. induction fuel as [|fuel IH]; intros c; [done|]. simpl.
  destruct (step self c) as [c1|r|k] eqn:Hstep; [|done|].
  - intros (c' & Hsteps & Hc')%IH. exists c'. split; [|done].
    by eapply rtc_l.
  - intros [= ->]. by exists c.
Qed.

(** A run raises only at a neighbor that has no entry in [distances]. *)
Lemma step_Raise self start c key :
  config_wf self start c → step self c = Raise key →
  key ∉ dom (adjacency self) ∧ ∃ u w, edge self u key w.
Proof.
  intros [_ Hdom _ Hpos]. unfold step.
  destruct (pos c) as [|u [|[v w] rest]]; [by repeat case_match|done|].
  destruct Hpos as (Hu & _ & done & Hdone).
  apply elem_of_dom in Hu as [du ->].
  destruct (distances c !! v) as [dv|] eqn:Hv; [by case_match|].
  intros [= <-]. apply not_elem_of_dom in Hv. split; [set_solver|].
  exists u, w. unfold edge. rewrite Hdone. set_solver.
Qed.

Lemma dijkstra_closed_returns self start :
  targets_are_keys self → ∃ t, dijkstra self start = Ok t.
Proof.
  intros Hclosed. destruct (dijkstra self start) as [t|key|] eqn:Hrun.
  - by exists t.
  - apply run_KeyError in Hrun as (c' & Hreach & Hraise).
    apply (step_Raise self start) in Hraise as [Hkey (u & w & He)];
      [|by apply config_wf_reachable].
    by apply Hclosed in He.
  - by apply dijkstra_not_Diverges in Hrun.
Qed.

End run_facts.

(** * The invariant of Dijkstra's algorithm *)

Section dijkstra_inv_facts.
Context {Q : PriorityQueue} {L : HeapLaws Q}.
Context (self : Graph) (start : string).
Hypothesis Hnn : nonneg_weights self.
Implicit Types (c : config) (v u : string) (x y : HeapItem).

Lemma walk_nonneg s v W : walk self s v W → 0 <= W.
Proof.
  induction 1 as [|u v w W _ IH He]; [lia|]. apply Hnn in He. lia.
Qed.

Lemma rooted_insert (P : gmap string (option string)) v p k o :
  rooted P start v p → k ∉ p → rooted (<[k:=o]> P) start v p.
Proof.
  induction 1 as [|v u p Hv Hu _ IH]; intros Hk; [constructor|].
  apply not_elem_of_app in Hk as [Hk Hkv%not_elem_of_cons].
  apply (rooted_step _ _ v u); [done| |by apply IH].
  rewrite lookup_insert_ne; [done|]. by destruct Hkv.
Qed.

Lemma rooted_last (P : gmap string (option string)) v p :
  rooted P start v p → last p = Some v ∧ head p = Some start.
Proof.
  induction 1 as [|v u p _ _ _ [IH1 IH2]]; [done|].
  split; [apply last_snoc|]. destruct p; by simplify_eq/=.
Qed.

Lemma dijkstra_inv_init : dijkstra_inv self start (dijkstra_init self start).
Proof.
  split; simpl.
  - apply config_wf_init.
  - apply lookup_insert_eq.
  - apply dom_fmap_L.
  - intros v n. rewrite lookup_insert. case_decide as Hv.
    + intros [= <-]. subst. constructor.
    + rewrite lookup_fmap. by destruct (adjacency self !! v).
  - set_solver.
  - intros x. rewrite heap_single_items. intros ->%list_elem_of_singleton.
    exists 0, (Fin 0). simpl. by rewrite lookup_insert_eq.
  - intros v n. rewrite heap_single_items, lookup_insert. case_decide as Hv.
    + intros [= <-] _. subst. apply list_elem_of_here.
    + rewrite lookup_fmap. by destruct (adjacency self !! v).
  - set_solver.
  - set_solver.
  - done.
  - intros v u. rewrite lookup_fmap. by destruct (adjacency self !! v).
  - intros v n Hv Hne. rewrite lookup_insert_ne, lookup_fmap in Hv by done.
    by destruct (adjacency self !! v).
  - intros v Hv Hne. rewrite lookup_insert_ne, lookup_fmap in Hv by done.
    rewrite lookup_fmap. by destruct (adjacency self !! v).
  - set_solver.
Qed.

(** Every walk that leaves the visited set passes a node outside it whose
    recorded distance is at most the weight of the walk. *)
Lemma frontier_bound c v W :
  dijkstra_inv self start c → pos c = AtWhile →
  walk self start v W → v ∉ visited_nodes c →
  ∃ z dz, z ∉ visited_nodes c ∧ distances c !! z = Some (Fin dz) ∧ dz <= W.
Proof.
  intros Hinv Hpos Hwalk.
  induction Hwalk as [|u v w W Hwalk IH He]; intros Hv.
  - exists start, 0. split; [done|]. split; [apply Hinv|lia].
  - destruct (decide (u ∈ visited_nodes c)) as [Hu|Hu].
    + destruct (inv_visited _ _ _ Hinv u Hu) as (n & Hn & Hmin).
      destruct (inv_processed _ _ _ Hinv u v w Hu) as (du & dv & Hdu & Hdv & Hle).
      { by rewrite Hpos. }
      simplify_eq. destruct dv as [m|]; [|done]. simpl in Hle.
      exists v, m. split; [done|]. split; [done|].
      specialize (Hmin _ Hwalk). lia.
    + destruct (IH Hu) as (z & dz & ? & ? & ?). exists z, dz.
      pose proof (Hnn _ _ _ He). split_and!; [done..|lia].
Qed.

(** The item popped for a node that is not yet visited carries the node's
    recorded distance, and no item left in the heap is smaller. *)
Lemma pop_fresh_key c x h' :
  dijkstra_inv self start c → heappop (heap c) = Some (x, h') →
  node x ∉ visited_nodes c →
  ∃ n, distance x = Fin n ∧ distances c !! node x = Some (Fin n).
Proof.
  intros Hinv Hpop Hfresh.
  pose proof (wf_heap _ _ _ (inv_wf _ _ _ Hinv)) as Hheap.
  pose proof (heappop_items _ _ _ Hheap Hpop) as Hperm.
  destruct (inv_items _ _ _ Hinv x) as (n & d & Hn & Hd & Hle).
  { rewrite Hperm. apply list_elem_of_here. }
  destruct d as [m|]; [|done]. simpl in Hle.
  exists n. split; [done|].
  pose proof (inv_frontier _ _ _ Hinv _ _ Hd Hfresh) as Hin.
  rewrite Hperm in Hin. apply elem_of_cons in Hin as [Heq|Hin].
  - rewrite <-Heq in Hn. simpl in Hn. by rewrite Hd, Hn.
  - apply (heappop_min _ _ _ Hheap Hpop) in Hin.
    unfold item_lt in Hin. rewrite Hn in Hin. simpl in Hin.
    apply bool_decide_eq_false in Hin. rewrite Hd. do 2 f_equal. lia.
Qed.


Lemma processed_next u e0 rest u' e :
  processed self (InFor u rest) u' e →
  (∃ done, neighbors self u = done ++ e0 :: rest) →
  processed self (InFor u (e0 :: rest)) u' e ∨ (u' = u ∧ e = e0).
Proof.
  unfold processed. case_decide as Hu; [|by left]. subst u'.
  intros (done' & Hdone' & He) (done & Hdone).
  rewrite Hdone, cons_middle, app_assoc in Hdone'.
  apply app_inv_tail in Hdone' as <-.
  apply elem_of_app in He as [He| ->%list_elem_of_singleton]; [|by right].
  left. by exists done.
Qed.

Lemma dijkstra_inv_step c c' :
  dijkstra_inv self start c → step self c = Next c' →
  dijkstra_inv self start c'.
Proof.
  intros Hinv Hstep.
  pose proof (config_wf_step _ _ _ _ (inv_wf _ _ _ Hinv) Hstep) as Hwf'.
  pose proof Hinv as
    [Hwf Hstart HdomP Hwalk Hvisited Hitems Hfront Hvh Hproc Hcur Hprev
       Hhas Hno Hroot].
  pose proof (wf_heap _ _ _ Hwf) as Hheap.
  unfold step in Hstep.
  destruct (pos c) as [|u [|[v w] rest]] eqn:Hpos.
  - (* the [while] test and [heappop] *)
    destruct (heappop (heap c)) as [[x h']|] eqn:Hpop; [|done].
    pose proof (heappop_items _ _ _ Hheap Hpop) as Hperm.
    pose proof (heappop_min _ _ _ Hheap Hpop) as Hmin.
    case_decide as Hvis; injection Hstep as <-.
    + (* a stale entry *)
      split; simpl; try done.
      * intros y Hy. apply Hitems. rewrite Hperm. by apply list_elem_of_further.
      * intros v n Hv Hnv. pose proof (Hfront v n Hv Hnv) as Hin.
        rewrite Hperm in Hin. apply elem_of_cons in Hin as [Heq|Hin]; [|done].
        subst x. done.
      * intros v d y Hv Hd Hy. apply (Hvh v d y); [done..|].
        rewrite Hperm. by apply list_elem_of_further.
    + (* [current_node] becomes visited *)
      destruct (pop_fresh_key c x h' Hinv Hpop Hvis) as (n & Hn & Hdu).
      split; simpl; try done.
      * intros v [->%elem_of_singleton|Hv]%elem_of_union; [|by apply Hvisited].
        exists n. split; [done|]. intros W HW.
        destruct (frontier_bound c (node x) W Hinv Hpos HW Hvis)
          as (z & dz & Hz & Hdz & Hle).
        pose proof (Hfront z dz Hdz Hz) as Hin. rewrite Hperm in Hin.
        apply elem_of_cons in Hin as [Heq|Hin].
        { rewrite <-Heq in Hn. simpl in Hn. simplify_eq. lia. }
        apply Hmin in Hin. unfold item_lt in Hin. rewrite Hn in Hin.
        simpl in Hin. apply bool_decide_eq_false in Hin. lia.
      * intros y Hy. apply Hitems. rewrite Hperm. by apply list_elem_of_further.
      * intros v n' Hv [Hne%not_elem_of_singleton Hnv]%not_elem_of_union.
        pose proof (Hfront v n' Hv Hnv) as Hin.
        rewrite Hperm in Hin. apply elem_of_cons in Hin as [Heq|Hin]; [|done].
        subst x. done.
      * intros v d y [->%elem_of_singleton|Hv]%elem_of_union Hd Hy.
        { rewrite Hdu in Hd. injection Hd as <-. rewrite <-Hn.
          apply dist_ltb_false_le. by apply Hmin. }
        apply (Hvh v d y); [done..|].
        rewrite Hperm. by apply list_elem_of_further.
      * intros u' v w Hu'. unfold processed. case_decide as Heq.
        { intros (done & Hdone & He).
          assert (done = []) as ->; [|by apply elem_of_nil in He].
          subst u'. apply (f_equal length) in Hdone.
          rewrite length_app in Hdone. destruct done; [done|simpl in Hdone; lia]. }
        intros He. apply Hproc; [set_solver|done].
      * intros v d du [->%elem_of_singleton|Hv]%elem_of_union Hd Hdu'.
        { rewrite Hd in Hdu'. injection Hdu' as <-. apply dist_le_refl. }
        rewrite Hdu in Hdu'. injection Hdu' as <-. rewrite <-Hn.
        apply (Hvh v d x); [done..|]. rewrite Hperm. apply list_elem_of_here.
      * intros v u' Hp. destruct (Hprev v u' Hp) as (Hu' & Hne & Hrest).
        split; [set_solver|done].
      * intros v [->%elem_of_singleton|Hv]%elem_of_union.
        { destruct (decide (node x = start)) as [Heq|Hne].
          - rewrite Heq. exists [start]. split; [constructor|].
            split; [apply NoDup_singleton|].
            intros y ->%list_elem_of_singleton. set_solver.
          - destruct (Hhas _ _ Hdu Hne) as [u' Hu'].
            destruct (Hprev _ _ Hu') as (Hu'vis & _).
            destruct (Hroot u' Hu'vis) as (p & Hp & Hnd & Hsub).
            exists (p ++ [node x]). split; [by eapply rooted_step|]. split.
            + apply NoDup_app. split; [done|]. split; [|apply NoDup_singleton].
              intros y Hy ->%list_elem_of_singleton. by apply Hsub in Hy.
            + intros y [Hy| ->%list_elem_of_singleton]%elem_of_app;
                [apply Hsub in Hy|]; set_solver. }
        destruct (Hroot v Hv) as (p & ? & ? & Hsub). exists p.
        split_and!; [done..|]. intros y Hy. apply Hsub in Hy. set_solver.
  - (* the [for] loop is over *)
    injection Hstep as <-. split; simpl; try done.
    intros u' v w Hu' He. apply Hproc; [done|].
    unfold processed. case_decide as Heq; [|done].
    subst u'. exists (neighbors self u). by rewrite app_nil_r.
  - (* one [(neighbor, weight)] entry *)
    pose proof (wf_pos _ _ _ Hwf) as Hwfpos. rewrite Hpos in Hwfpos.
    destruct Hwfpos as ([du Hu]%elem_of_dom & HuV & Hdone).
    rewrite Hu in Hstep.
    assert (edge self u v w) as Hedge.
    { destruct Hdone as [done Hdone]. unfold edge. rewrite Hdone. set_solver. }
    pose proof (Hnn _ _ _ Hedge) as Hw.
    destruct (distances c !! v) as [dv|] eqn:Hv; [|done].
    destruct (dist_ltb (dist_add du w) dv) eqn:Hlt; injection Hstep as <-.
    + (* relaxation *)
      apply dist_ltb_true_lt in Hlt as (k & Hk & Hklt).
      destruct du as [m|]; [|done]. injection Hk as <-.
      pose proof (walk_nonneg _ _ _ (Hwalk _ _ Hu)) as Hm.
      assert (dist_le (Fin (m + w)) dv) as Hkle.
      { destruct dv as [n|]; [|done]. simpl. specialize (Hklt n eq_refl). lia. }
      assert (v ∉ visited_nodes c) as HvV.
      { intros HvV. pose proof (Hcur v dv (Fin m) HvV Hv Hu) as Hle.
        destruct dv as [n|]; [|done]. simpl in Hle.
        specialize (Hklt n eq_refl). lia. }
      assert (v ≠ start) as Hvs.
      { intros ->. rewrite Hstart in Hv. injection Hv as <-.
        specialize (Hklt 0 eq_refl). lia. }
      assert (v ≠ u) as Hvu by (by intros ->).
      split; simpl; try done.
      * by rewrite lookup_insert_ne.
      * rewrite dom_insert_L, HdomP. apply elem_of_dom_2 in Hv.
        rewrite (wf_dom_distances _ _ _ Hwf) in Hv. set_solver.
      * intros v' n'. rewrite lookup_insert. case_decide as Heq; [|apply Hwalk].
        intros [= <-]. subst v'. apply walk_edge with u; [by apply Hwalk|done].
      * intros v' Hv'. rewrite lookup_insert_ne by (by intros ->).
        by apply Hvisited.
      * intros y. rewrite heappush_items by done.
        intros [->|Hy]%elem_of_cons.
        { simpl. exists (m + w), (Fin (m + w)). rewrite lookup_insert_eq.
          split_and!; [done..|simpl; lia]. }
        destruct (Hitems y Hy) as (ny & d & Hny & Hd & Hle).
        destruct (decide (node y = v)) as [Heq|Hne].
        { exists ny, (Fin (m + w)). rewrite Heq, lookup_insert_eq.
          split_and!; [done..|]. rewrite Heq, Hv in Hd. injection Hd as <-.
          by eapply dist_le_trans. }
        exists ny, d. by rewrite lookup_insert_ne.
      * intros v' n'. rewrite lookup_insert, heappush_items by done.
        case_decide as Heq.
        { intros [= <-] _. subst v'. apply list_elem_of_here. }
        intros. apply list_elem_of_further. by apply Hfront.
      * intros v' d y Hv'. rewrite lookup_insert_ne by (by intros ->).
        intros Hd. rewrite heappush_items by done.
        intros [->|Hy]%elem_of_cons; [|by apply (Hvh v' d y)].
        simpl. pose proof (Hcur v' d (Fin m) Hv' Hd Hu) as Hle.
        destruct d as [n'|]; [|done]. simpl in *. lia.
      * intros u' v' w' Hu' Hproc'.
        assert (u' ≠ v) as Hu'v by (by intros ->).
        rewrite (lookup_insert_ne _ v u') by done.
        destruct (processed_next _ (v, w) _ _ _ Hproc' Hdone)
          as [Hold|[-> [= -> ->]]].
        { destruct (Hproc u' v' w' Hu' Hold) as (du' & dv' & Hdu' & Hdv' & Hle).
          destruct (decide (v' = v)) as [->|Hne].
          - exists du', (Fin (m + w)). rewrite lookup_insert_eq.
            split_and!; [done..|]. rewrite Hv in Hdv'. injection Hdv' as <-.
            by eapply dist_le_trans.
          - exists du', dv'. by rewrite lookup_insert_ne. }
        exists (Fin m), (Fin (m + w)). rewrite lookup_insert_eq.
        split_and!; [done..|simpl; lia].
      * intros v' d du' Hv'. rewrite !lookup_insert_ne by (by intros ->).
        by apply Hcur.
      * intros v' u'. rewrite lookup_insert. case_decide as Heq.
        { subst v'. intros [= <-]. split; [done|]. split; [done|].
          exists w, m. rewrite lookup_insert_ne, lookup_insert_eq by done.
          done. }
        intros Hp.
        destruct (Hprev v' u' Hp) as (Hu'V & Hne & w' & du' & He & Hdu' & Hdv').
        split; [done|]. split; [done|]. exists w', du'.
        rewrite !lookup_insert_ne by (done || by intros ->). done.
      * intros v' n'. rewrite !lookup_insert. case_decide; [by eauto|apply Hhas].
      * intros v'. rewrite !lookup_insert. case_decide; [done|apply Hno].
      * intros v' Hv'. destruct (Hroot v' Hv') as (p & Hp & Hnd & Hsub).
        exists p. split; [|done]. apply rooted_insert; [done|].
        intros Hin. by apply Hsub in Hin.
    + (* no improvement *)
      split; simpl; try done.
      intros u' v' w' Hu' Hproc'.
      destruct (processed_next _ (v, w) _ _ _ Hproc' Hdone)
        as [Hold|[-> [= -> ->]]]; [by apply Hproc|].
      exists du, dv. split_and!; [done..|]. by apply dist_ltb_false_le.
Qed.

Lemma dijkstra_inv_reachable c :
  reachable self start c → dijkstra_inv self start c.
Proof.
  revert c. apply rtc_ind_r; eauto using dijkstra_inv_init, dijkstra_inv_step.
Qed.

End dijkstra_inv_facts.

(** * Distances along a run *)

Section distances_facts.
Context {Q : PriorityQueue} {L : HeapLaws Q}.
Context (self : Graph) (start : string).
Hypothesis Hnn : nonneg_weights self.
Implicit Types (c : config) (v u : string).

(** A step either leaves the tables alone or relaxes one node that is not
    visited, lowering its distance; [visited_nodes] only grows. *)
Lemma step_distances c c' :
  dijkstra_inv self start c → step self c = Next c' →
  visited_nodes c ⊆ visited_nodes c' ∧
  ((distances c' = distances c ∧ previous_nodes c' = previous_nodes c) ∨
   ∃ v k d u, v ∉ visited_nodes c ∧ distances c !! v = Some d ∧
              dist_ltb (Fin k) d = true ∧
              distances c' = <[v := Fin k]> (distances c) ∧
              previous_nodes c' = <[v := Some u]> (previous_nodes c)).
Proof.
  intros Hinv Hstep. unfold step in Hstep.
  pose proof (inv_current _ _ _ Hinv) as Hcur.
  pose proof (wf_pos _ _ _ (inv_wf _ _ _ Hinv)) as Hwfpos.
  destruct (pos c) as [|u [|[v w] rest]] eqn:Hpos.
  - destruct (heappop (heap c)) as [[x h']|]; [|done].
    case_decide; injection Hstep as <-; simpl; split; (set_solver || by left).
  - injection Hstep as <-. simpl. split; [done|by left].
  - destruct Hwfpos as ([du Hu]%elem_of_dom & HuV & done & Hdone).
    rewrite Hu in Hstep.
    destruct (distances c !! v) as [dv|] eqn:Hv; [|done].
    destruct (dist_ltb (dist_add du w) dv) eqn:Hlt; injection Hstep as <-;
      simpl; (split; [done|]); [|by left].
    right. pose proof Hlt as (k & Hk & Hklt)%dist_ltb_true_lt.
    exists v, k, dv, u. rewrite Hk in Hlt |- *. split_and!; [|done..].
    intros HvV. destruct du as [m|]; [|done]. injection Hk as <-.
    pose proof (Hcur v dv (Fin m) HvV Hv Hu) as Hle.
    destruct dv as [n|]; [|done]. simpl in Hle. specialize (Hklt n eq_refl).
    assert (edge self u v w) as He.
    { unfold edge. rewrite Hdone. set_solver. }
    apply Hnn in He. lia.
Qed.

Lemma steps_distances c c' :
  dijkstra_inv self start c → rtc (step_to self) c c' →
  visited_nodes c ⊆ visited_nodes c' ∧
  (∀ v d, distances c !! v = Some d →
     ∃ d', distances c' !! v = Some d' ∧ dist_le d' d) ∧
  (∀ v, v ∈ visited_nodes c →
     distances c' !! v = distances c !! v ∧
     previous_nodes c' !! v = previous_nodes c !! v).
Proof.
  intros Hinv Hsteps. induction Hsteps as [c|c c1 c' Hstep _ IH].
  { split; [done|]. split; [|done]. intros v d ?. exists d.
    split; [done|apply dist_le_refl]. }
  destruct (IH (dijkstra_inv_step _ _ Hnn _ _ Hinv Hstep))
    as (Hvis & Hmono & Hfix).
  destruct (step_distances _ _ Hinv Hstep) as [Hvis1 Hd].
  split; [set_solver|].
  destruct Hd as [[Heq Heq']|(v0 & k & d0 & u0 & Hv0 & Hd0 & Hlt & Heq & Heq')];
    rewrite Heq, Heq' in *.
  { split; [done|]. intros v Hv. apply Hfix. set_solver. }
  split.
  - intros v d Hd. destruct (decide (v = v0)) as [->|Hne].
    + destruct (Hmono v0 (Fin k)) as (d' & Hd' & Hle);
        [by rewrite lookup_insert_eq|].
      exists d'. split; [done|]. eapply dist_le_trans; [done|].
      rewrite Hd0 in Hd. injection Hd as <-. apply dist_ltb_false_le.
      destruct (dist_ltb d0 (Fin k)) eqn:Hgt; [|done].
      apply dist_ltb_true_lt in Hlt as (? & [= <-] & Hlt).
      apply dist_ltb_true_lt in Hgt as (n & -> & Hgt).
      specialize (Hlt n eq_refl). specialize (Hgt k eq_refl). lia.
    + apply Hmono. by rewrite lookup_insert_ne.
  - intros v Hv. destruct (Hfix v) as [-> ->]; [set_solver|].
    rewrite !lookup_insert_ne by (by intros ->). done.
Qed.

Lemma visited_shortest c v :
  dijkstra_inv self start c → v ∈ visited_nodes c →
  ∃ n, distances c !! v = Some (Fin n) ∧ shortest self start v n.
Proof.
  intros Hinv Hv. destruct (inv_visited _ _ _ Hinv v Hv) as (n & Hn & Hmin).
  exists n. split; [done|]. split; [|done]. by eapply inv_walk.
Qed.

(** The tables returned are those of a configuration of the run that is at
    the [while] test with an empty heap. *)
Lemma dijkstra_Ok_config d p :
  dijkstra self start = Ok (d, p) →
  ∃ c, reachable self start c ∧ pos c = AtWhile ∧
       heap_items (heap c) = [] ∧ d = distances c ∧ p = previous_nodes c.
Proof.
  intros (c & Hc & Hpos & Hheap & [= -> ->])%run_Ok. by exists c.
Qed.

Lemma final_visited c v n :
  dijkstra_inv self start c → heap_items (heap c) = [] →
  distances c !! v = Some (Fin n) → v ∈ visited_nodes c.
Proof.
  intros Hinv Hheap Hv. destruct (decide (v ∈ visited_nodes c)); [done|].
  pose proof (inv_frontier _ _ _ Hinv v n Hv) as Hin.
  rewrite Hheap in Hin. by apply elem_of_nil in Hin.
Qed.

(** Dijkstra's algorithm is correct: finite entries are shortest distances
    and the nodes left at [inf] cannot be reached. *)
Lemma dijkstra_correct d p :
  dijkstra self start = Ok (d, p) →
  d !! start = Some (Fin 0) ∧
  (∀ v n, d !! v = Some (Fin n) → shortest self start v n) ∧
  (∀ v W, walk self start v W → ∃ n, d !! v = Some (Fin n)).
Proof.
  intros (c & Hc & Hpos & Hheap & -> & ->)%dijkstra_Ok_config.
  pose proof (dijkstra_inv_reachable _ _ Hnn _ Hc) as Hinv.
  split; [apply Hinv|]. split.
  - intros v n Hv.
    destruct (visited_shortest c v Hinv) as (n' & Hn' & Hs);
      [by eapply final_visited|]. by simplify_eq.
  - intros v W Hwalk. destruct (decide (v ∈ visited_nodes c)) as [Hv|Hv].
    + destruct (inv_visited _ _ _ Hinv v Hv) as (n & Hn & _). by exists n.
    + destruct (frontier_bound _ _ Hnn c v W Hinv Hpos Hwalk Hv)
        as (z & dz & Hz & Hdz & _).
      by apply (final_visited c z dz Hinv Hheap) in Hdz.
Qed.

End distances_facts.

(** * Predecessor chains and [shortest_path] *)

Section path_facts.
Context {Q : PriorityQueue} {L : HeapLaws Q}.
Context (self : Graph) (start : string).
Hypothesis Hnn : nonneg_weights self.
Implicit Types (c : config) (v u : string) (p : gmap string (option string)).

Lemma path_weight_snoc l u v w W :
  path_weight self l W → last l = Some u → edge self u v w →
  path_weight self (l ++ [v]) (W + w).
Proof.
  induction 1 as [x|x y l w' W' He Hl IH]; intros Hlast Hedge.
  - injection Hlast as ->. simpl.
    replace (0 + w) with (w + 0) by lia. by repeat constructor.
  - rewrite last_cons_cons in Hlast. simpl.
    replace (w' + W' + w) with (w' + (W' + w)) by lia.
    constructor; [done|]. by apply IH.
Qed.

Lemma path_weight_edges l W :
  path_weight self l W →
  ∀ i u v, l !! i = Some u → l !! S i = Some v → ∃ w, edge self u v w.
Proof.
  induction 1 as [x|x y l w' W' He Hl IH]; intros i u v Hu Hv; [done|].
  destruct i as [|i]; simpl in *.
  - simplify_eq. by exists w'.
  - by apply (IH i).
Qed.

(** The chain of a node is a path of the graph and weighs the node's
    recorded distance. *)
Lemma rooted_path_weight c v l :
  dijkstra_inv self start c → rooted (previous_nodes c) start v l →
  ∃ n, distances c !! v = Some (Fin n) ∧ path_weight self l n.
Proof.
  intros Hinv. induction 1 as [|v u l Hv Hu Hroot (n & Hn & Hpath)].
  - exists 0. split; [apply Hinv|constructor].
  - destruct (inv_previous _ _ _ Hinv v u Hu)
      as (_ & _ & w & du & He & Hdu & Hdv).
    exists (du + w). split; [done|]. simplify_eq.
    apply path_weight_snoc with u; [done| |done].
    by apply rooted_last in Hroot as [? _].
Qed.

Lemma edge_source_key u v w : edge self u v w → u ∈ dom (adjacency self).
Proof.
  unfold edge, neighbors. intros He.
  destruct (adjacency self !! u) eqn:Hadj; [by eapply elem_of_dom_2|].
  by apply elem_of_nil in He.
Qed.

Lemma rooted_start_key c v l :
  dijkstra_inv self start c → rooted (previous_nodes c) start v l →
  v ∈ dom (adjacency self) → start ∈ dom (adjacency self).
Proof.
  intros Hinv. induction 1 as [|v u l Hvs Hu _ IH]; [done|]. intros _.
  destruct (inv_previous _ _ _ Hinv _ _ Hu) as (_ & _ & w & ? & He & _).
  by apply edge_source_key, IH in He.
Qed.

Lemma rooted_length p v l :
  rooted p start v l → NoDup l → (length l ≤ S (size p))%nat.
Proof.
  intros Hroot Hnd.
  assert (∀ x, x ∈ l → x ∈ start :: elements (dom p)) as Hsub.
  { clear Hnd. induction Hroot as [|v u l Hv Hu _ IH]; [set_solver|].
    intros x [Hx| ->%list_elem_of_singleton]%elem_of_app; [by apply IH|].
    apply list_elem_of_further, elem_of_elements. by apply elem_of_dom_2 in Hu. }
  apply NoDup_submseteq, submseteq_length in Hsub; [|done].
  simpl in Hsub. by rewrite <-size_dom.
Qed.

(** The backward walk from [v] follows the chain of [v]; at [start] it ends
    if [start] has an entry and raises if it has none. *)
Lemma backtrack_rooted p v l fuel acc :
  rooted p start v l → (∀ u, p !! start ≠ Some (Some u)) →
  (length l ≤ fuel)%nat →
  backtrack fuel p (Some v) acc =
    match p !! start with
    | Some _ => Ok (acc ++ reverse l)
    | None => KeyError start
    end.
Proof.
  intros Hroot Hstart. revert fuel acc.
  induction Hroot as [|v u l Hv Hu _ IH]; intros [|fuel] acc Hlen;
    simpl in Hlen; try lia.
  - simpl. destruct (p !! start) as [[u|]|] eqn:Hs; [by destruct (Hstart u)| |done].
    by destruct fuel.
  - rewrite length_app in Hlen. simpl in Hlen. lia.
  - simpl. rewrite Hu, IH by (rewrite length_app in Hlen; simpl in Hlen; lia).
    destruct (p !! start); [|done]. by rewrite reverse_app, <-app_assoc.
Qed.

Lemma start_previous c :
  dijkstra_inv self start c →
  previous_nodes c !! start =
    if decide (start ∈ dom (adjacency self)) then Some None else None.
Proof.
  intros Hinv. pose proof (inv_dom_previous _ _ _ Hinv) as Hdom.
  case_decide as Hs; rewrite <-Hdom in Hs.
  - apply elem_of_dom in Hs as [[u|] Hs]; [|done].
    by destruct (inv_previous _ _ _ Hinv _ _ Hs) as (_ & ? & _).
  - by apply not_elem_of_dom.
Qed.

(** What [shortest_path] returns for a node with a finite distance. *)
Lemma shortest_path_finite d p end_node n :
  dijkstra self start = Ok (d, p) → d !! end_node = Some (Fin n) →
  ∃ path, rooted p start end_node path ∧ path_weight self path n ∧
    shortest_path self start end_node =
      if decide (start ∈ dom (adjacency self)) then Ok path
      else KeyError start.
Proof.
  intros Hrun Hend. unfold shortest_path. rewrite Hrun.
  apply dijkstra_Ok_config in Hrun as (c & Hc & Hpos & Hheap & -> & ->).
  pose proof (dijkstra_inv_reachable _ _ Hnn _ Hc) as Hinv.
  rewrite Hend. cbn [default]. rewrite decide_False by done.
  pose proof (final_visited _ _ c end_node n Hinv Hheap Hend) as Hvis.
  destruct (inv_rooted _ _ _ Hinv _ Hvis) as (path & Hroot & Hnd & _).
  exists path. split; [done|].
  destruct (rooted_path_weight c _ _ Hinv Hroot) as (n' & Hn' & Hpath).
  split; [by simplify_eq|].
  rewrite (backtrack_rooted _ _ path); [| done | | by eapply rooted_length].
  - rewrite (start_previous c Hinv). case_decide; [|done].
    simpl. by rewrite reverse_involutive.
  - intros u Hu. by destruct (inv_previous _ _ _ Hinv _ _ Hu) as (_ & ? & _).
Qed.

(** [shortest_path] on a graph whose start is a key: a lightest path. *)
Lemma shortest_path_correct d p end_node W :
  start ∈ dom (adjacency self) →
  dijkstra self start = Ok (d, p) → walk self start end_node W →
  ∃ path n, shortest_path self start end_node = Ok path ∧
    head path = Some start ∧ last path = Some end_node ∧
    path_weight self path n ∧ d !! end_node = Some (Fin n) ∧
    shortest self start end_node n.
Proof.
  intros Hstart Hrun Hwalk.
  destruct (dijkstra_correct _ _ Hnn d p Hrun) as (_ & Hshort & Hreach).
  destruct (Hreach _ _ Hwalk) as [n Hn].
  destruct (shortest_path_finite d p end_node n Hrun Hn)
    as (path & Hroot & Hpath & Hsp).
  rewrite decide_True in Hsp by done.
  apply rooted_last in Hroot as [Hlast Hhead].
  exists path, n. split_and!; try done. by apply Hshort.
Qed.

(** The predecessor table has no cycle: the backward walk from any of its
    nodes ends at [None] within [size p] steps, and it ends at [start] when
    the node has a finite distance. *)
Lemma previous_nodes_chain d p v :
  dijkstra self start = Ok (d, p) → v ∈ dom p →
  ∃ path, backtrack (S (size p)) p (Some v) [] = Ok path ∧
    head path = Some v ∧
    (∀ n, d !! v = Some (Fin n) → last path = Some start).
Proof.
  intros Hrun Hv.
  pose proof Hrun as (c & Hc & Hpos & Hheap & -> & ->)%dijkstra_Ok_config.
  pose proof (dijkstra_inv_reachable _ _ Hnn _ Hc) as Hinv.
  pose proof Hv as Hvd. rewrite (inv_dom_previous _ _ _ Hinv) in Hvd.
  assert (v ∈ dom (distances c)) as [dv Hdv]%elem_of_dom.
  { rewrite (wf_dom_distances _ _ _ (inv_wf _ _ _ Hinv)). set_solver. }
  destruct dv as [n|].
  - pose proof (final_visited _ _ c v n Hinv Hheap Hdv) as Hvis.
    destruct (inv_rooted _ _ _ Hinv _ Hvis) as (l & Hroot & Hnd & _).
    pose proof (rooted_start_key c v l Hinv Hroot Hvd) as Hs.
    exists (reverse l).
    rewrite (backtrack_rooted _ _ l); [| done | | by eapply rooted_length].
    + rewrite (start_previous c Hinv), decide_True by done.
      apply rooted_last in Hroot as [Hlast Hhead].
      split; [done|]. split; [by rewrite head_reverse|].
      intros _ _. by rewrite last_reverse.
    + intros u Hu. by destruct (inv_previous _ _ _ Hinv _ _ Hu) as (_ & ? & _).
  - exists [v]. simpl.
    assert (v ≠ start) as Hne.
    { intros ->. pose proof (inv_start _ _ _ Hinv). congruence. }
    rewrite (inv_no_previous _ _ _ Hinv v Hdv Hne). simpl.
    split; [by destruct (size _)|]. split; [done|]. intros n. congruence.
Qed.

(** The backward walk of [shortest_path] comes to an end. *)
Lemma shortest_path_not_Diverges end_node :
  shortest_path self start end_node ≠ Diverges.
Proof.
  destruct (dijkstra self start) as [[d p]|key|] eqn:Hrun.
  - destruct (d !! end_node) as [[n|]|] eqn:Hend.
    + destruct (shortest_path_finite d p end_node n Hrun Hend)
        as (path & _ & _ & ->). by case_decide.
    + unfold shortest_path. by rewrite Hrun, Hend.
    + unfold shortest_path. by rewrite Hrun, Hend.
  - unfold shortest_path. by rewrite Hrun.
  - by apply dijkstra_not_Diverges in Hrun.
Qed.

End path_facts.

(** * Calls: a start without adjacency entry, calls on the object *)

Section call_facts.
Context {Q : PriorityQueue} {L : HeapLaws Q}.
Implicit Types (self : Graph) (c : config) (start : string).

Lemma run_Next fuel self c c' :
  step self c = Next c' → run (S fuel) self c = run fuel self c'.
Proof. intros Hstep. simpl. by rewrite Hstep. Qed.

(** From a start that is not a key nothing is relaxed: the tables are the
    initial ones. *)
Lemma dijkstra_isolated self start :
  start ∉ dom (adjacency self) →
  dijkstra self start =
    Ok (<[start := Fin 0]> ((λ _, Inf) <$> adjacency self),
        (λ _, None) <$> adjacency self).
Proof.
  intros Hs. unfold dijkstra, dijkstra_fuel.
  replace (3 * pending_edges self ∅ + 3)%nat
    with (S (S (S (3 * pending_edges self ∅)))) by lia.
  set (x := mkHeapItem (Fin 0) start).
  destruct (heappop (heap_single x)) as [[x' h']|] eqn:Hpop.
  2:{ apply heappop_empty in Hpop. by rewrite heap_single_items in Hpop. }
  pose proof (heappop_items _ _ _ (heap_single_inv x) Hpop) as Hperm.
  rewrite heap_single_items in Hperm.
  apply Permutation_singleton_l in Hperm. injection Hperm as <- Hh'.
  symmetry in Hh'. apply heappop_empty in Hh'. apply not_elem_of_dom in Hs.
  rewrite (run_Next _ _ _ (mkConfig
    (<[start := Fin 0]> ((λ _, Inf) <$> adjacency self))
    ((λ _, None) <$> adjacency self) h' ({[start]} ∪ ∅) (InFor start []))).
  2:{ unfold step, dijkstra_init. simpl. fold x. rewrite Hpop. simpl.
      rewrite decide_False by set_solver. unfold neighbors. by rewrite Hs. }
  rewrite (run_Next _ _ _ (mkConfig
    (<[start := Fin 0]> ((λ _, Inf) <$> adjacency self))
    ((λ _, None) <$> adjacency self) h' ({[start]} ∪ ∅) AtWhile)) by done.
  simpl. unfold step. simpl. by rewrite Hh'.
Qed.

Lemma shortest_path_isolated self start :
  start ∉ dom (adjacency self) →
  shortest_path self start start = KeyError start.
Proof.
  intros Hs. unfold shortest_path. rewrite dijkstra_isolated by done.
  rewrite lookup_insert_eq. cbn [default]. rewrite decide_False by done.
  cbn [backtrack]. rewrite lookup_fmap.
  apply not_elem_of_dom in Hs. by rewrite Hs.
Qed.

(** A step, a run and a call leave the object as it is, and return what
    [step], [run] and [dijkstra] compute from it. *)
Lemma step_call_step c self : step_call c self = (self, step self c).
Proof.
  unfold step_call, step.
  destruct (pos c) as [|u [|[v w] rest]]; repeat case_match; done.
Qed.

Lemma run_call_run fuel c self :
  run_call fuel c self = (self, run fuel self c).
Proof.
  revert c. induction fuel as [|fuel IH]; intros c; [done|].
  cbn [run_call run]. unfold mbind, method_bind at 1.
  rewrite step_call_step. destruct (step self c); [apply IH|done..].
Qed.

Lemma Graph_dijkstra_dijkstra start self :
  Graph_dijkstra start self = (self, dijkstra self start).
Proof.
  unfold Graph_dijkstra, init_call, read_adjacency, dijkstra.
  unfold mbind, method_bind, mret, method_ret. rewrite run_call_run.
  by destruct self.
Qed.

Lemma run_runs_to self fuel c :
  run fuel self c ≠ Diverges → runs_to self c (run fuel self c).
Proof.
  revert c. induction fuel as [|fuel IH]; intros c; [done|]. simpl.
  destruct (step self c) as [c'|t|key] eqn:Hstep; intros Hr.
  - eapply runs_next; [done|]. by apply IH.
  - by apply runs_return.
  - by apply runs_raise.
Qed.

(** Every call has a result, the one [dijkstra] computes. *)
Lemma dijkstra_call_dijkstra self start :
  dijkstra_call self start (dijkstra self start).
Proof. apply run_runs_to, dijkstra_not_Diverges. Qed.

Lemma config_after_steps self n c :
  rtc (step_to self) c (config_after n self c).
Proof.
  revert c. induction n as [|n IH]; intros c; [done|]. simpl.
  destruct (step self c) as [c'| |] eqn:Hstep; [|done..].
  by eapply rtc_l.
Qed.

End call_facts.

(** * Checks on a concrete graph *)

Lemma nonneg_weightsb_spec self :
  nonneg_weightsb self = true → nonneg_weights self.
Proof.
  unfold nonneg_weightsb. rewrite bool_decide_eq_true.
  intros Hall u v w. unfold edge, neighbors.
  destruct (adjacency self !! u) as [l|] eqn:Hu; [|by intros ?%elem_of_nil].
  intros He. apply Hall in Hu. rewrite Forall_forall in Hu.
  by apply Hu in He.
Qed.

Lemma targets_are_keysb_spec self :
  targets_are_keysb self = true → targets_are_keys self.
Proof.
  unfold targets_are_keysb. rewrite bool_decide_eq_true.
  intros Hall u v w. unfold edge, neighbors.
  destruct (adjacency self !! u) as [l|] eqn:Hu; [|by intros ?%elem_of_nil].
  intros He. apply Hall in Hu. rewrite Forall_forall in Hu.
  by apply Hu in He.
Qed.

(** * The fuel of the loops does not matter *)

Section fuel_facts.
Context {Q : PriorityQueue}.

Lemma siftdown_loop_fuel fuel1 fuel2 h startpos pos newitem :
  (pos ≤ fuel1)%nat → (pos ≤ fuel2)%nat →
  heapq.siftdown_loop fuel1 h startpos pos newitem =
  heapq.siftdown_loop fuel2 h startpos pos newitem.
Proof.
  revert fuel2 h pos.
  induction fuel1 as [|fuel1 IH]; intros [|fuel2] h pos H1 H2;
    cbn [heapq.siftdown_loop]; try done.
  - rewrite decide_False by lia. done.
  - rewrite decide_False by lia. done.
  - case_decide as Hpos; [|done]. destruct (item_lt _ _); [|done].
    pose proof (child_of_lt _ _ (child_of_parent pos ltac:(lia))).
    apply IH; lia.
Qed.

Lemma siftup_loop_fuel fuel1 fuel2 h endpos pos :
  (endpos ≤ fuel1 + pos)%nat → (endpos ≤ fuel2 + pos)%nat →
  heapq.siftup_loop fuel1 h endpos pos = heapq.siftup_loop fuel2 h endpos pos.
Proof.
  revert fuel2 h pos.
  induction fuel1 as [|fuel1 IH]; intros [|fuel2] h pos H1 H2;
    cbn [heapq.siftup_loop]; try done.
  - rewrite decide_False by lia. done.
  - rewrite decide_False by lia. done.
  - case_decide as Hpos; [|done]. apply IH; repeat case_decide;
      repeat case_match; lia.
Qed.

Lemma run_fuel_mono fuel fuel' self (c : config) r :
  run fuel self c = r → r ≠ Diverges → (fuel ≤ fuel')%nat →
  run fuel' self c = r.
Proof.
  revert fuel' c. induction fuel as [|fuel IH]; intros [|fuel'] c Hr Hne Hle;
    simpl in *; try (congruence || lia).
  destruct (step self c); [|done..]. apply IH; [done..|lia].
Qed.

Lemma backtrack_fuel_mono fuel fuel' p current_node path r :
  backtrack fuel p current_node path = r → r ≠ Diverges →
  (fuel ≤ fuel')%nat → backtrack fuel' p current_node path = r.
Proof.
  revert fuel' current_node path.
  induction fuel as [|fuel IH]; intros [|fuel'] [n|] path Hr Hne Hle;
    simpl in *; try (congruence || lia).
  destruct (p !! n); [|done]. apply IH; [done..|lia].
Qed.

End fuel_facts.

(** * Tables and paths where every node met has an entry *)

Section closed_facts.
Context {Q : PriorityQueue} {L : HeapLaws Q}.
Context (self : Graph) (start : string).
Hypothesis Hnn : nonneg_weights self.

(** The tables [dijkstra] returns, when it returns: one distance per key
    and for the start, one predecessor per key; the start is at distance 0
    and nodes left at [inf] have no predecessor. *)
Lemma dijkstra_tables d p :
  dijkstra self start = Ok (d, p) →
  dom d = {[start]} ∪ dom (adjacency self) ∧ dom p = dom (adjacency self) ∧
  d !! start = Some (Fin 0) ∧
  p !! start = (if decide (start ∈ dom (adjacency self))
                then Some None else None) ∧
  (∀ v, d !! v = Some Inf → p !! v = Some None).
Proof.
  intros (c & Hc & Hpos & Hheap & -> & ->)%dijkstra_Ok_config.
  pose proof (dijkstra_inv_reachable _ _ Hnn _ Hc) as Hinv.
  split_and!.
  - apply Hinv.
  - apply Hinv.
  - apply Hinv.
  - by apply start_previous.
  - intros v Hv. apply (inv_no_previous _ _ _ Hinv v Hv).
    intros ->. pose proof (inv_start _ _ _ Hinv). congruence.
Qed.

(** On a graph whose neighbor targets are all keys [dijkstra] returns. *)
Lemma dijkstra_closed_tables :
  targets_are_keys self →
  ∃ d p, dijkstra self start = Ok (d, p) ∧
    dom d = {[start]} ∪ dom (adjacency self) ∧ dom p = dom (adjacency self).
Proof.
  intros [[d p] Hrun]%(dijkstra_closed_returns _ start).
  exists d, p. split; [done|].
  by destruct (dijkstra_tables d p Hrun) as (? & ? & _).
Qed.

(** There, with a start that is a key, [shortest_path] returns a lightest
    path to every node that can be reached. *)
Lemma shortest_path_closed end_node W :
  targets_are_keys self → start ∈ dom (adjacency self) →
  walk self start end_node W →
  ∃ path n, shortest_path self start end_node = Ok path ∧
    head path = Some start ∧ last path = Some end_node ∧
    path_weight self path n ∧ shortest self start end_node n.
Proof.
  intros [[d p] Hrun]%(dijkstra_closed_returns _ start) Hstart Hwalk.
  destruct (shortest_path_correct _ _ Hnn d p end_node W Hstart Hrun Hwalk)
    as (path & n & ? & ? & ? & ? & _ & ?).
  by exists path, n.
Qed.

(** A node that cannot be reached gets the empty list. *)
Lemma shortest_path_unreachable d p end_node :
  dijkstra self start = Ok (d, p) →
  (∀ W, ¬ walk self start end_node W) →
  shortest_path self start end_node = Ok [].
Proof.
  intros Hrun Hno. unfold shortest_path. rewrite Hrun.
  destruct (dijkstra_correct _ _ Hnn d p Hrun) as (_ & Hshort & _).
  destruct (d !! end_node) as [[n|]|] eqn:Hend; [|done..].
  destruct (Hshort _ _ Hend) as [Hwalk _]. by apply Hno in Hwalk.
Qed.

End closed_facts.

(* ================================================================= *)
(** * The shortest-path engine on Python's [heapq] *)

(** C1. With non-negative weights, along a run of [dijkstra] the recorded
    distance of every node never goes up, and a node that is in
    [visited_nodes] stays there, is never relaxed again (its entries in
    [distances] and [previous_nodes] no longer change) and carries the
    weight of a lightest walk from [start]. *)
Theorem dijkstra_visited_settled (self : Graph) (start : string)
    (c c' : config) :
  nonneg_weights self → reachable self start c → rtc (step_to self) c c' →
  (∀ v d, distances c !! v = Some d →
     ∃ d', distances c' !! v = Some d' ∧ dist_le d' d) ∧
  (∀ v, v ∈ visited_nodes c →
     v ∈ visited_nodes c' ∧
     distances c' !! v = distances c !! v ∧
     previous_nodes c' !! v = previous_nodes c !! v ∧
     ∃ n, distances c !! v = Some (Fin n) ∧ shortest self start v n).
Proof.
  intros Hnn Hc Hsteps.
  pose proof (dijkstra_inv_reachable _ _ Hnn _ Hc) as Hinv.
  destruct (steps_distances _ _ Hnn _ _ Hinv Hsteps) as (Hvis & Hmono & Hfix).
  split; [done|]. intros v Hv. destruct (Hfix v Hv) as [Hd Hp].
  split; [by apply Hvis|]. split; [done|]. split; [done|].
  by apply visited_shortest.
Qed.

Lemma dijkstra_visited_settled_witness :
  let c := config_after 4 demo_graph (dijkstra_init demo_graph "A") in
  let c' := config_after 9 demo_graph c in
  (∀ v d, distances c !! v = Some d →
     ∃ d', distances c' !! v = Some d' ∧ dist_le d' d) ∧
  (∀ v, v ∈ visited_nodes c →
     v ∈ visited_nodes c' ∧
     distances c' !! v = distances c !! v ∧
     previous_nodes c' !! v = previous_nodes c !! v ∧
     ∃ n, distances c !! v = Some (Fin n) ∧ shortest demo_graph "A" v n).
Proof.
  intros c c'. apply (dijkstra_visited_settled demo_graph "A" c c').
  - apply nonneg_weightsb_spec. vm_compute. reflexivity.
  - apply config_after_steps.
  - apply config_after_steps.
Defined.

(** C2, at the failing input: a neighbor that is no key of the adjacency
    map has no entry in [distances], and the comparison of line 40 raises
    [KeyError]. *)
Theorem dijkstra_one_way_KeyError :
  dijkstra one_way_graph "A" = KeyError "B".
Proof. vm_compute. reflexivity. Qed.

(** C3. The demo graph: distances from ["A"] and the path to ["D"]. *)
Theorem demo_graph_shortest_paths :
  dijkstra demo_graph "A" = Ok (demo_distances, demo_previous_nodes) ∧
  shortest_path demo_graph "A" "D" = Ok ["A"; "C"; "E"; "D"].
Proof. split; vm_compute; reflexivity. Qed.

(** C4, at the failing inputs: ["B"] is reached from ["A"] over an edge of
    weight 1 and is known to the graph, yet both calls raise. *)
Theorem shortest_path_one_way_KeyError :
  nonneg_weights one_way_graph ∧ walk one_way_graph "A" "B" 1 ∧
  shortest_path one_way_graph "A" "B" = KeyError "B" ∧
  shortest_path one_way_graph "B" "B" = KeyError "B".
Proof.
  split; [apply nonneg_weightsb_spec; vm_compute; reflexivity|].
  split; [|split; vm_compute; reflexivity].
  apply (walk_edge _ _ "A" "B" 1 0); [constructor|].
  unfold edge. vm_compute. apply list_elem_of_here.
Qed.

(** C5. When the distance computed for [end_node] is [inf], or
    [end_node] has no entry, [shortest_path] returns the empty list. *)
Theorem shortest_path_no_path (self : Graph) (start end_node : string)
    (d : gmap string dist) (p : gmap string (option string)) :
  dijkstra self start = Ok (d, p) → default Inf (d !! end_node) = Inf →
  shortest_path self start end_node = Ok [].
Proof.
  intros Hrun Hend. unfold shortest_path. rewrite Hrun.
  by rewrite decide_True.
Qed.

Lemma shortest_path_no_path_witness :
  shortest_path demo_graph "A" "Z" = Ok [].
Proof.
  apply (shortest_path_no_path demo_graph "A" "Z"
           demo_distances demo_previous_nodes).
  - vm_compute. reflexivity.
  - vm_compute. reflexivity.
Defined.

(** C6, at the failing inputs: with a start that is no key, [dijkstra]
    returns a [previous_nodes] without entry for the start; and on a graph
    with a one-way edge the call raises instead of returning tables. *)
Theorem dijkstra_start_entries :
  (∃ d p, dijkstra Graph_init "A" = Ok (d, p) ∧
          d !! "A" = Some (Fin 0) ∧ p !! "A" = None) ∧
  dijkstra one_way_graph "A" = KeyError "B".
Proof.
  split; [|vm_compute; reflexivity].
  exists {["A" := Fin 0]}, ∅. split_and!; vm_compute; reflexivity.
Qed.

(** C7, as stated, fails: the distance table of the empty graph is not
    empty. *)
Lemma empty_graph_distances_not_empty :
  dijkstra Graph_init "A" ≠ Ok (∅, ∅).
Proof. vm_compute. discriminate. Qed.

(** C7, amended. On the empty graph [dijkstra] returns a distance table
    whose only entry is the start, at distance 0, and an empty predecessor
    table. *)
Theorem dijkstra_empty_graph (start : string) :
  dijkstra Graph_init start = Ok ({[start := Fin 0]}, ∅).
Proof.
  rewrite dijkstra_isolated by set_solver. simpl.
  by rewrite !fmap_empty, insert_empty.
Qed.

(** C8. Two calls of [dijkstra] in a row on a graph object, with the same
    start, return the same: the same pair of tables, or the same error.
    The first call leaves the object as it found it, so the second call
    runs on the same adjacency map. *)
Theorem dijkstra_twice_same_tables (self self1 self2 : Graph)
    (start : string) (r1 r2 : result tables) :
  Graph_dijkstra start self = (self1, r1) →
  Graph_dijkstra start self1 = (self2, r2) →
  r1 = r2 ∧ self2 = self.
Proof.
  rewrite (Graph_dijkstra_dijkstra start self). intros [= <- <-].
  rewrite (Graph_dijkstra_dijkstra start self). intros [= <- <-]. done.
Qed.

Lemma dijkstra_twice_same_tables_witness :
  Ok (demo_distances, demo_previous_nodes)
  = Ok (demo_distances, demo_previous_nodes) ∧
  demo_graph = demo_graph.
Proof.
  apply (dijkstra_twice_same_tables demo_graph demo_graph demo_graph "A").
  - vm_compute. reflexivity.
  - vm_compute. reflexivity.
Defined.

(** Between two calls [add_edge] changes the object, and the tables with
    it. *)
Example dijkstra_around_add_edge :
  (r1 ← Graph_dijkstra "A";
   _ ← Graph_add_edge "A" "B" 1 true;
   r2 ← Graph_dijkstra "A";
   mret (r1, r2)) Graph_init
  = (add_edge Graph_init "A" "B" 1 true,
     (Ok ({["A" := Fin 0]}, ∅),
      Ok (<["B" := Fin 1]> {["A" := Fin 0]},
          <["B" := Some "A"]> {["A" := None]}))).
Proof. vm_compute. reflexivity. Qed.

(** C9. With non-negative weights the predecessor table [dijkstra] returns
    has no cycle: from each of its nodes the backward walk reaches [None]
    within [size p] steps, and when the node has a finite distance the last
    node before [None] is [start]; from a node without entry the walk
    raises at once; so the loop of [shortest_path] always ends. *)
Theorem previous_nodes_acyclic (self : Graph) (start : string)
    (d : gmap string dist) (p : gmap string (option string)) :
  nonneg_weights self → dijkstra self start = Ok (d, p) →
  (∀ v, v ∈ dom p →
     ∃ path, backtrack (S (size p)) p (Some v) [] = Ok path ∧
       head path = Some v ∧
       (∀ n, d !! v = Some (Fin n) → last path = Some start)) ∧
  (∀ v, v ∉ dom p → backtrack (S (size p)) p (Some v) [] = KeyError v) ∧
  (∀ end_node, shortest_path self start end_node ≠ Diverges).
Proof.
  intros Hnn Hrun. split_and!.
  - intros v Hv. by apply (previous_nodes_chain self start Hnn d p v).
  - intros v Hv%not_elem_of_dom. simpl. by rewrite Hv.
  - intros end_node. by apply shortest_path_not_Diverges.
Qed.

Lemma previous_nodes_acyclic_witness :
  (∀ v, v ∈ dom demo_previous_nodes →
     ∃ path, backtrack (S (size demo_previous_nodes)) demo_previous_nodes
               (Some v) [] = Ok path ∧
       head path = Some v ∧
       (∀ n, demo_distances !! v = Some (Fin n) → last path = Some "A")) ∧
  (∀ v, v ∉ dom demo_previous_nodes →
     backtrack (S (size demo_previous_nodes)) demo_previous_nodes
       (Some v) [] = KeyError v) ∧
  (∀ end_node, shortest_path demo_graph "A" end_node ≠ Diverges).
Proof.
  apply (previous_nodes_acyclic demo_graph "A").
  - apply nonneg_weightsb_spec. vm_compute. reflexivity.
  - vm_compute. reflexivity.
Defined.

(** C10. On a graph whose neighbor targets are all keys, asking for the
    path from a node that is no key to itself raises [KeyError].  (The
    condition on the targets is not needed: see [shortest_path_isolated].) *)
Theorem shortest_path_self_not_key (self : Graph) (s : string) :
  targets_are_keys self → s ∉ dom (adjacency self) →
  shortest_path self s s = KeyError s.
Proof. intros _. apply shortest_path_isolated. Qed.

Lemma shortest_path_self_not_key_witness :
  shortest_path demo_graph "Z" "Z" = KeyError "Z".
Proof.
  apply (shortest_path_self_not_key demo_graph "Z").
  - apply targets_are_keysb_spec. vm_compute. reflexivity.
  - apply not_elem_of_dom. vm_compute. reflexivity.
Defined.

(* ================================================================= *)
(** * Further properties of the graph and of the engine *)

(** ** [add_edge] *)

Lemma neighbors_setdefault_append adj key e n :
  neighbors (mkGraph (setdefault_append adj key e)) n =
  neighbors (mkGraph adj) n ++ (if decide (n = key) then [e] else []).
Proof.
  unfold neighbors, setdefault_append. simpl. rewrite lookup_insert.
  destruct (decide (key = n)) as [->|Hne].
  - by rewrite decide_True.
  - rewrite decide_False by done. by rewrite app_nil_r.
Qed.

(** X1. [add_edge] appends: the list of every node keeps its entries in
    their order, [source] gets [(target, weight)] at the end and, with
    [bidirectional], [target] then gets [(source, weight)] at the end.
    Equal entries are kept side by side, and a bidirectional self-loop is
    entered twice. *)
Theorem add_edge_neighbors (self : Graph) (source target : string)
    (weight : Z) (bidirectional : bool) (n : string) :
  neighbors (add_edge self source target weight bidirectional) n =
  neighbors self n
  ++ (if decide (n = source) then [(target, weight)] else [])
  ++ (if bidirectional then
        if decide (n = target) then [(source, weight)] else []
      else []).
Proof.
  unfold add_edge. destruct self as [adj]. simpl.
  destruct bidirectional.
  - by rewrite !neighbors_setdefault_append, <-app_assoc.
  - by rewrite neighbors_setdefault_append, app_nil_r.
Qed.

(** X2. The keys after [add_edge]: [source] becomes a key, [target] only
    with [bidirectional], and no key is ever lost. *)
Theorem add_edge_keys (self : Graph) (source target : string)
    (weight : Z) (bidirectional : bool) :
  dom (adjacency (add_edge self source target weight bidirectional)) =
  dom (adjacency self) ∪ {[source]}
  ∪ (if bidirectional then {[target]} else ∅).
Proof.
  unfold add_edge, setdefault_append. simpl.
  destruct bidirectional; rewrite !dom_insert_L; set_solver.
Qed.

Lemma add_edge_edge self source target weight bidirectional u v w :
  edge (add_edge self source target weight bidirectional) u v w ↔
  edge self u v w ∨ (u = source ∧ v = target ∧ w = weight) ∨
  (bidirectional = true ∧ u = target ∧ v = source ∧ w = weight).
Proof.
  unfold edge. rewrite add_edge_neighbors, !elem_of_app.
  destruct bidirectional; repeat case_decide;
    rewrite ?list_elem_of_singleton, ?elem_of_nil; naive_solver.
Qed.

(** ** Graphs built with bidirectional edges only *)

Lemma load_edges_snoc edges source target weight graph :
  load_edges (edges ++ [(source, target, weight)]) graph =
  add_edge (load_edges edges graph) source target weight true.
Proof. unfold load_edges. by rewrite foldl_app. Qed.

Lemma _load_edges_load_edges graph :
  _load_edges graph = load_edges demo_edges graph.
Proof. reflexivity. Qed.

Lemma load_edges_targets_are_keys edges graph :
  targets_are_keys graph → targets_are_keys (load_edges edges graph).
Proof.
  induction edges as [|[[s t] x] edges IH] using rev_ind; [done|].
  intros Hg u v w. rewrite load_edges_snoc, add_edge_edge, add_edge_keys.
  intros [He|[(-> & -> & ->)|(_ & -> & -> & ->)]]; [|set_solver..].
  apply (IH Hg) in He. set_solver.
Qed.

Lemma load_edges_symmetric edges graph :
  symmetric_edges graph → symmetric_edges (load_edges edges graph).
Proof.
  induction edges as [|[[s t] x] edges IH] using rev_ind; [done|].
  intros Hg u v w. rewrite load_edges_snoc, !add_edge_edge.
  intros [He|[(-> & -> & ->)|(_ & -> & -> & ->)]]; [|naive_solver..].
  left. by apply (IH Hg).
Qed.

Lemma load_edges_nonneg edges graph :
  nonneg_weights graph → Forall (λ e : string * string * Z, 0 <= e.2) edges →
  nonneg_weights (load_edges edges graph).
Proof.
  induction edges as [|[[s t] x] edges IH] using rev_ind; [done|].
  intros Hg [Hall Hx]%Forall_app u v w.
  rewrite Forall_singleton in Hx. simpl in Hx.
  rewrite load_edges_snoc, add_edge_edge.
  intros [He|[(-> & -> & ->)|(_ & -> & -> & ->)]]; [|done..].
  by apply (IH Hg Hall) in He.
Qed.

Lemma Graph_init_no_edge u v w : ¬ edge Graph_init u v w.
Proof. unfold edge, neighbors. simpl. rewrite lookup_empty. apply not_elem_of_nil. Qed.

(** ** Runs: end, size of the heap, the key that is raised *)

Section more_run_facts.
Context {Q : PriorityQueue} {L : HeapLaws Q}.
Context (self : Graph) (start : string).
Implicit Types (c : config) (v u : string).

Lemma runs_to_not_Diverges c r : runs_to self c r → r ≠ Diverges.
Proof. induction 1; done. Qed.

Lemma heap_budget_step c c' :
  config_wf self start c → step self c = Next c' →
  (heap_budget self c' ≤ heap_budget self c)%nat.
Proof.
  intros [Hheap _ _ _]. unfold step, heap_budget.
  destruct (pos c) as [|u [|[v w] rest]] eqn:Hpos.
  - destruct (heappop (heap c)) as [[x h']|] eqn:Hpop; [|done].
    rewrite (heappop_length _ _ _ Hheap Hpop).
    case_decide as Hvis; intros [= <-]; simpl; [lia|].
    pose proof (pending_edges_visit self _ _ Hvis). lia.
  - intros [= <-]. simpl. lia.
  - destruct (distances c !! u) as [du|]; [|done].
    destruct (distances c !! v) as [dv|]; [|done].
    destruct (dist_ltb _ _); intros [= <-]; simpl; [|lia].
    rewrite heappush_length by done. lia.
Qed.

Lemma heap_budget_reachable c :
  reachable self start c → (heap_budget self c ≤ S (edge_count self))%nat.
Proof.
  intros Hc. pose proof Hc as Hreach. revert c Hc Hreach.
  apply (rtc_ind_r (λ c, reachable self start c →
                         (heap_budget self c ≤ S (edge_count self))%nat)).
  - intros _. unfold heap_budget, edge_count. simpl.
    rewrite heap_single_items. simpl. lia.
  - intros c c' Hc Hstep IH _.
    pose proof (heap_budget_step c c' (config_wf_reachable _ _ _ Hc) Hstep).
    specialize (IH Hc). lia.
Qed.

Lemma heap_size_reachable c :
  reachable self start c →
  (length (heap_items (heap c)) ≤ S (edge_count self))%nat.
Proof.
  intros Hc%heap_budget_reachable. unfold heap_budget in Hc. lia.
Qed.

Lemma pop_minimum c x h' y :
  reachable self start c → heappop (heap c) = Some (x, h') →
  y ∈ heap_items (heap c) → item_lt y x = false.
Proof.
  intros Hc%config_wf_reachable Hpop Hy.
  pose proof (wf_heap _ _ _ Hc) as Hheap.
  rewrite (heappop_items _ _ _ Hheap Hpop) in Hy.
  apply elem_of_cons in Hy as [->|Hy]; [apply item_lt_irrefl|].
  by apply (heappop_min _ _ _ Hheap Hpop).
Qed.

Hypothesis Hnn : nonneg_weights self.

Lemma step_Raise_walk c key :
  dijkstra_inv self start c → step self c = Raise key →
  key ≠ start ∧ key ∉ dom (adjacency self) ∧ ∃ W, walk self start key W.
Proof.
  intros Hinv Hstep.
  pose proof (inv_wf _ _ _ Hinv) as Hwf.
  pose proof (wf_pos _ _ _ Hwf) as Hpos. unfold step in Hstep.
  destruct (pos c) as [|u [|[v w] rest]]; [by repeat case_match|done|].
  destruct Hpos as ([du Hu]%elem_of_dom & HuV & done & Hdone).
  rewrite Hu in Hstep.
  destruct (distances c !! v) as [dv|] eqn:Hv; [by case_match|].
  injection Hstep as <-. apply not_elem_of_dom in Hv.
  rewrite (wf_dom_distances _ _ _ Hwf) in Hv.
  split; [set_solver|]. split; [set_solver|].
  destruct (inv_visited _ _ _ Hinv u HuV) as (n & Hn & _).
  exists (n + w). apply walk_edge with u; [by eapply inv_walk|].
  unfold edge. rewrite Hdone. set_solver.
Qed.

Lemma dijkstra_KeyError_walk key :
  dijkstra self start = KeyError key →
  key ≠ start ∧ key ∉ dom (adjacency self) ∧ ∃ W, walk self start key W.
Proof.
  intros (c & Hc & Hraise)%run_KeyError.
  apply (step_Raise_walk c); [|done]. by apply dijkstra_inv_reachable.
Qed.

Lemma dijkstra_raises v W :
  walk self start v W → v ≠ start → v ∉ dom (adjacency self) →
  ∃ key, dijkstra self start = KeyError key.
Proof.
  intros Hwalk Hvs Hv.
  destruct (dijkstra self start) as [[d p]|key|] eqn:Hrun.
  - destruct (dijkstra_correct _ _ Hnn d p Hrun) as (_ & _ & Hreach).
    destruct (Hreach _ _ Hwalk) as [n Hn%elem_of_dom_2].
    destruct (dijkstra_tables _ _ Hnn d p Hrun) as (Hdom & _).
    rewrite Hdom in Hn. set_solver.
  - by exists key.
  - by apply dijkstra_not_Diverges in Hrun.
Qed.

(** The returned tables, read entry by entry. *)
Lemma dijkstra_distances_iff d p :
  dijkstra self start = Ok (d, p) →
  (∀ v n, d !! v = Some (Fin n) ↔ shortest self start v n) ∧
  (∀ v, d !! v = Some Inf ↔
        v ∈ dom (adjacency self) ∧ ∀ W, ¬ walk self start v W).
Proof.
  intros Hrun.
  destruct (dijkstra_correct _ _ Hnn d p Hrun) as (Hs & Hshort & Hreach).
  destruct (dijkstra_tables _ _ Hnn d p Hrun) as (Hdom & _).
  split.
  - intros v n. split; [apply Hshort|]. intros [Hwalk Hmin].
    destruct (Hreach _ _ Hwalk) as [m Hm]. rewrite Hm.
    destruct (Hshort _ _ Hm) as [Hwalk' Hmin'].
    apply Hmin in Hwalk'. apply Hmin' in Hwalk. do 2 f_equal. lia.
  - intros v. split.
    + intros Hv. split.
      * pose proof (elem_of_dom_2 _ _ _ Hv) as Hin. rewrite Hdom in Hin.
        assert (v ≠ start) by (intros ->; congruence). set_solver.
      * intros W [n Hn]%Hreach. congruence.
    + intros [Hv Hno].
      assert (v ∈ dom d) as [[n|] Hd]%elem_of_dom by (rewrite Hdom; set_solver);
        [|done].
      destruct (Hshort _ _ Hd) as [Hwalk _]. by apply Hno in Hwalk.
Qed.

Lemma dijkstra_previous_iff d p :
  dijkstra self start = Ok (d, p) →
  (∀ v u, p !! v = Some (Some u) →
     v ≠ start ∧ ∃ w du, edge self u v w ∧ d !! u = Some (Fin du) ∧
                         d !! v = Some (Fin (du + w))) ∧
  (∀ v, p !! v = Some None ↔
        v ∈ dom (adjacency self) ∧ (v = start ∨ d !! v = Some Inf)).
Proof.
  intros (c & Hc & Hpos & Hheap & -> & ->)%dijkstra_Ok_config.
  pose proof (dijkstra_inv_reachable _ _ Hnn _ Hc) as Hinv.
  pose proof (inv_wf _ _ _ Hinv) as Hwf. split.
  - intros v u Hp.
    by destruct (inv_previous _ _ _ Hinv v u Hp) as (_ & ? & ?).
  - intros v. split.
    + intros Hp. pose proof (elem_of_dom_2 _ _ _ Hp) as Hv.
      rewrite (inv_dom_previous _ _ _ Hinv) in Hv. split; [done|].
      destruct (decide (v = start)) as [|Hne]; [by left|right].
      assert (v ∈ dom (distances c)) as [[n|] Hd]%elem_of_dom;
        [rewrite (wf_dom_distances _ _ _ Hwf); set_solver| |done].
      destruct (inv_has_previous _ _ _ Hinv v n Hd Hne) as [u Hu]. congruence.
    + intros [Hv [->|Hd]].
      * rewrite (start_previous _ _ c Hinv). by rewrite decide_True.
      * apply (inv_no_previous _ _ _ Hinv v Hd). intros ->.
        pose proof (inv_start _ _ _ Hinv). congruence.
Qed.

(** The path [shortest_path] returns for a node with a finite distance
    visits no node twice. *)
Lemma shortest_path_finite_simple d p end_node n :
  dijkstra self start = Ok (d, p) → d !! end_node = Some (Fin n) →
  start ∈ dom (adjacency self) →
  ∃ path, shortest_path self start end_node = Ok path ∧ NoDup path ∧
    head path = Some start ∧ last path = Some end_node ∧
    path_weight self path n.
Proof.
  intros Hrun Hend Hstart.
  destruct (shortest_path_finite _ _ Hnn d p end_node n Hrun Hend)
    as (path & Hroot & Hpath & Hsp).
  rewrite decide_True in Hsp by done.
  exists path. split; [done|].
  apply dijkstra_Ok_config in Hrun as (c & Hc & Hpos & Hheap & -> & ->).
  pose proof (dijkstra_inv_reachable _ _ Hnn _ Hc) as Hinv.
  pose proof (final_visited _ _ c end_node n Hinv Hheap Hend) as Hvis.
  destruct (inv_rooted _ _ _ Hinv _ Hvis) as (path' & Hroot' & Hnd & _).
  assert (path' = path) as ->.
  { clear -Hroot Hroot'. revert path' Hroot'.
    induction Hroot as [|v u l Hv Hu _ IH]; intros path' Hroot'.
    - inversion Hroot'; subst; [done|congruence].
    - inversion Hroot' as [|v' u' l' Hv' Hu' Hr']; subst; [done|].
      rewrite Hu in Hu'. injection Hu' as <-. by rewrite (IH l'). }
  apply rooted_last in Hroot as [? ?]. done.
Qed.

Lemma walk_first s u v w W :
  edge self s u w → walk self u v W → walk self s v (w + W).
Proof.
  intros He. induction 1 as [|x y w' W' _ IH He'].
  - replace (w + 0) with (0 + w) by lia. apply walk_edge with s; [constructor|done].
  - replace (w + (W' + w')) with (w + W' + w') by lia.
    by apply walk_edge with x.
Qed.

Lemma walk_reverse a b W :
  symmetric_edges self → walk self a b W → walk self b a W.
Proof.
  intros Hsym. induction 1 as [|x y w W _ IH He]; [constructor|].
  replace (W + w) with (w + W) by lia.
  apply walk_first with x; [by apply Hsym|done].
Qed.

End more_run_facts.

(** ** Graphs built with [bidirectional=True] *)

(** X3. A graph built from the empty graph by [add_edge] calls with
    [bidirectional=True] holds every edge in both directions, has every
    neighbor target among its keys, and has non-negative weights when the
    weights given are. *)
Theorem bidirectional_graph_shape (edges : list (string * string * Z)) :
  symmetric_edges (load_edges edges Graph_init) ∧
  targets_are_keys (load_edges edges Graph_init) ∧
  (Forall (λ e : string * string * Z, 0 <= e.2) edges →
   nonneg_weights (load_edges edges Graph_init)).
Proof.
  split_and!.
  - apply load_edges_symmetric. intros u v w He.
    by apply Graph_init_no_edge in He.
  - apply load_edges_targets_are_keys. intros u v w He.
    by apply Graph_init_no_edge in He.
  - apply load_edges_nonneg. intros u v w He.
    by apply Graph_init_no_edge in He.
Qed.

(** X4. On such a graph [dijkstra] never raises, whatever the weights and
    the start: it returns a distance table over the keys and the start. *)
Theorem bidirectional_graph_dijkstra_returns
    (edges : list (string * string * Z)) (start : string) :
  ∃ d p, dijkstra (load_edges edges Graph_init) start = Ok (d, p) ∧
         dom d = {[start]} ∪ dom (adjacency (load_edges edges Graph_init)).
Proof.
  destruct (bidirectional_graph_shape edges) as (_ & Hclosed & _).
  destruct (dijkstra_closed_returns _ start Hclosed) as [[d p] Hrun].
  exists d, p. split; [done|].
  apply dijkstra_Ok_config in Hrun as (c & Hc & _ & _ & -> & _).
  apply config_wf_reachable in Hc. apply Hc.
Qed.

(** X5. On such a graph with non-negative weights distances are
    symmetric: the distance [dijkstra(a)] records for [b] is the distance
    [dijkstra(b)] records for [a], both read as line 50 reads them. *)
Theorem bidirectional_graph_distances_symmetric
    (edges : list (string * string * Z)) (a b : string) :
  Forall (λ e : string * string * Z, 0 <= e.2) edges →
  ∃ da pa db pb,
    dijkstra (load_edges edges Graph_init) a = Ok (da, pa) ∧
    dijkstra (load_edges edges Graph_init) b = Ok (db, pb) ∧
    distance_of da b = distance_of db a.
Proof.
  intros Hedges.
  destruct (bidirectional_graph_shape edges) as (Hsym & Hclosed & Hnn).
  specialize (Hnn Hedges). set (g := load_edges edges Graph_init) in *.
  destruct (dijkstra_closed_returns g a Hclosed) as [[da pa] Ha].
  destruct (dijkstra_closed_returns g b Hclosed) as [[db pb] Hb].
  exists da, pa, db, pb. split; [done|]. split; [done|].
  destruct (dijkstra_correct _ _ Hnn da pa Ha) as (_ & Hsa & Hra).
  destruct (dijkstra_correct _ _ Hnn db pb Hb) as (_ & Hsb & Hrb).
  assert (∀ (x y : string) (dx dy : gmap string dist) n,
    (∀ v m, dx !! v = Some (Fin m) → shortest g x v m) →
    (∀ v W, walk g y v W → ∃ m, dy !! v = Some (Fin m)) →
    (∀ v m, dy !! v = Some (Fin m) → shortest g y v m) →
    dx !! y = Some (Fin n) → dy !! x = Some (Fin n)) as Hone.
  { intros x y dx dy n Hsx Hry Hsy Hn.
    destruct (Hsx _ _ Hn) as [Hwalk Hmin].
    destruct (Hry x n (walk_reverse _ _ _ _ Hsym Hwalk)) as [m Hm].
    rewrite Hm. destruct (Hsy _ _ Hm) as [Hwalk' Hmin'].
    apply (walk_reverse _ _ _ _ Hsym), Hmin in Hwalk'.
    apply (walk_reverse _ _ _ _ Hsym), Hmin' in Hwalk.
    do 2 f_equal. lia. }
  unfold distance_of.
  destruct (da !! b) as [[n|]|] eqn:Hab.
  - by rewrite (Hone a b da db n Hsa Hrb Hsb Hab).
  - destruct (db !! a) as [[m|]|] eqn:Hba; [|done..].
    rewrite (Hone b a db da m Hsb Hra Hsa Hba) in Hab. done.
  - destruct (db !! a) as [[m|]|] eqn:Hba; [|done..].
    rewrite (Hone b a db da m Hsb Hra Hsa Hba) in Hab. done.
Qed.

Lemma bidirectional_graph_distances_symmetric_witness :
  ∃ da pa db pb,
    dijkstra (load_edges demo_edges Graph_init) "A" = Ok (da, pa) ∧
    dijkstra (load_edges demo_edges Graph_init) "F" = Ok (db, pb) ∧
    distance_of da "F" = distance_of db "A".
Proof.
  apply (bidirectional_graph_distances_symmetric demo_edges "A" "F").
  repeat constructor; simpl; lia.
Defined.

(** ** Every call ends *)

(** X6. Every call of [dijkstra] ends, with tables or with a [KeyError],
    after at most [3 * E + 3] steps of its loops, where [E] counts the
    adjacency entries: also with negative weights, cycles of weight 0,
    self-loops and parallel edges. *)
Theorem dijkstra_terminates (self : Graph) (start : string) :
  dijkstra_call self start
    (run (3 * edge_count self + 3) self (dijkstra_init self start)) ∧
  run (3 * edge_count self + 3) self (dijkstra_init self start) ≠ Diverges.
Proof.
  split; [apply dijkstra_call_dijkstra|apply dijkstra_not_Diverges].
Qed.

(** X7. The heap never holds more than [E + 1] items, [E] the number of
    adjacency entries of the graph: an entry pushes at most one item. *)
Theorem heap_size_bound (self : Graph) (start : string) (c : config) :
  reachable self start c → (length (heap c) ≤ edge_count self + 1)%nat.
Proof.
  intros Hc%heap_size_reachable. simpl in Hc. lia.
Qed.

Lemma heap_size_bound_witness :
  (length (heap (config_after 9 demo_graph (dijkstra_init demo_graph "A")))
   ≤ edge_count demo_graph + 1)%nat.
Proof.
  apply (heap_size_bound demo_graph "A"). apply config_after_steps.
Defined.

(** X8. Whatever the weights, the list [heap] is a heap in every
    configuration of a run, and the item line 32 pops has the least
    distance of all items in it. *)
Theorem dijkstra_pops_minimum (self : Graph) (start : string) (c : config)
    (current_item : HeapItem) (heap' : list HeapItem) :
  reachable self start c →
  heapq.heappop (heap c) = Some (current_item, heap') →
  heap_ordered (heap c) ∧
  ∀ item, item ∈ heap c → item_lt item current_item = false.
Proof.
  intros Hc Hpop. split.
  - apply config_wf_reachable in Hc. apply Hc.
  - intros item Hitem. by apply (pop_minimum self start c current_item heap').
Qed.

Lemma dijkstra_pops_minimum_witness :
  let c := config_after 9 demo_graph (dijkstra_init demo_graph "A") in
  heap_ordered (heap c) ∧
  ∀ item, item ∈ heap c → item_lt item (mkHeapItem (Fin 4) "B") = false.
Proof.
  intros c.
  apply (dijkstra_pops_minimum demo_graph "A" c (mkHeapItem (Fin 4) "B")
           [mkHeapItem (Fin 5) "E"]).
  - apply config_after_steps.
  - vm_compute. reflexivity.
Defined.

(** ** When [dijkstra] raises *)

(** X9. With non-negative weights [dijkstra] raises [KeyError] exactly when
    some node other than the start that is no key of the adjacency map can
    be reached from the start, and the key it raises is such a node. *)
Theorem dijkstra_KeyError_iff (self : Graph) (start : string) :
  nonneg_weights self →
  ((∃ key, dijkstra self start = KeyError key) ↔
   (∃ v W, walk self start v W ∧ v ≠ start ∧ v ∉ dom (adjacency self))) ∧
  (∀ key, dijkstra self start = KeyError key →
     key ≠ start ∧ key ∉ dom (adjacency self) ∧ ∃ W, walk self start key W).
Proof.
  intros Hnn. split; [split|].
  - intros [key Hkey].
    destruct (dijkstra_KeyError_walk self start Hnn key Hkey)
      as (? & ? & W & ?). by exists key, W.
  - intros (v & W & Hwalk & Hvs & Hv).
    by apply (dijkstra_raises self start Hnn v W).
  - intros key. by apply dijkstra_KeyError_walk.
Qed.

Lemma dijkstra_KeyError_iff_witness :
  ((∃ key, dijkstra one_way_graph "A" = KeyError key) ↔
   (∃ v W, walk one_way_graph "A" v W ∧ v ≠ "A" ∧
           v ∉ dom (adjacency one_way_graph))) ∧
  (∀ key, dijkstra one_way_graph "A" = KeyError key →
     key ≠ "A" ∧ key ∉ dom (adjacency one_way_graph) ∧
     ∃ W, walk one_way_graph "A" key W).
Proof.
  apply (dijkstra_KeyError_iff one_way_graph "A").
  apply nonneg_weightsb_spec. vm_compute. reflexivity.
Defined.

(** ** The tables returned *)

(** X10. With non-negative weights, in the distance table [dijkstra]
    returns an entry is a number exactly when that number is the weight of
    a lightest walk from the start, and is [inf] exactly for the keys that
    cannot be reached. *)
Theorem dijkstra_distances_exact (self : Graph) (start : string)
    (d : gmap string dist) (p : gmap string (option string)) :
  nonneg_weights self → dijkstra self start = Ok (d, p) →
  (∀ v n, d !! v = Some (Fin n) ↔ shortest self start v n) ∧
  (∀ v, d !! v = Some Inf ↔
        v ∈ dom (adjacency self) ∧ ∀ W, ¬ walk self start v W).
Proof. intros Hnn. by apply dijkstra_distances_iff. Qed.

Lemma dijkstra_distances_exact_witness :
  (∀ v n, demo_distances !! v = Some (Fin n) ↔ shortest demo_graph "A" v n) ∧
  (∀ v, demo_distances !! v = Some Inf ↔
        v ∈ dom (adjacency demo_graph) ∧ ∀ W, ¬ walk demo_graph "A" v W).
Proof.
  apply (dijkstra_distances_exact demo_graph "A" demo_distances
           demo_previous_nodes).
  - apply nonneg_weightsb_spec. vm_compute. reflexivity.
  - vm_compute. reflexivity.
Defined.

(** X11. With non-negative weights, in the tables returned a predecessor
    [u] of [v] is joined to [v] by an edge that closes a lightest walk:
    [distances[v] = distances[u] + weight]; and the entry is [None] exactly
    for the start, when it is a key, and for the keys left at [inf]. *)
Theorem dijkstra_previous_tight (self : Graph) (start : string)
    (d : gmap string dist) (p : gmap string (option string)) :
  nonneg_weights self → dijkstra self start = Ok (d, p) →
  (∀ v u, p !! v = Some (Some u) →
     v ≠ start ∧ ∃ w du, edge self u v w ∧ d !! u = Some (Fin du) ∧
                         d !! v = Some (Fin (du + w))) ∧
  (∀ v, p !! v = Some None ↔
        v ∈ dom (adjacency self) ∧ (v = start ∨ d !! v = Some Inf)).
Proof. intros Hnn. by apply dijkstra_previous_iff. Qed.

Lemma dijkstra_previous_tight_witness :
  (∀ v u, demo_previous_nodes !! v = Some (Some u) →
     v ≠ "A" ∧ ∃ w du, edge demo_graph u v w ∧
                       demo_distances !! u = Some (Fin du) ∧
                       demo_distances !! v = Some (Fin (du + w))) ∧
  (∀ v, demo_previous_nodes !! v = Some None ↔
        v ∈ dom (adjacency demo_graph) ∧
        (v = "A" ∨ demo_distances !! v = Some Inf)).
Proof.
  apply (dijkstra_previous_tight demo_graph "A").
  - apply nonneg_weightsb_spec. vm_compute. reflexivity.
  - vm_compute. reflexivity.
Defined.

(** ** [shortest_path] where [dijkstra] returns *)

(** X12. With non-negative weights, a start that is a key and a call of
    [dijkstra] that returns, [shortest_path] gives for every node that can
    be reached a path from the start to it that visits no node twice,
    follows edges of the graph and is as light as any walk: its weight is
    the distance recorded for the node. *)
Theorem shortest_path_lightest_simple (self : Graph)
    (start end_node : string) (d : gmap string dist)
    (p : gmap string (option string)) (W : Z) :
  nonneg_weights self → start ∈ dom (adjacency self) →
  dijkstra self start = Ok (d, p) → walk self start end_node W →
  ∃ path n, shortest_path self start end_node = Ok path ∧
    NoDup path ∧ head path = Some start ∧ last path = Some end_node ∧
    path_weight self path n ∧ d !! end_node = Some (Fin n) ∧ n <= W.
Proof.
  intros Hnn Hstart Hrun Hwalk.
  destruct (dijkstra_correct _ _ Hnn d p Hrun) as (_ & Hshort & Hreach).
  destruct (Hreach _ _ Hwalk) as [n Hn].
  destruct (shortest_path_finite_simple _ _ Hnn d p end_node n Hrun Hn Hstart)
    as (path & ? & ? & ? & ? & ?).
  exists path, n. split_and!; try done.
  destruct (Hshort _ _ Hn) as [_ Hmin]. by apply Hmin.
Qed.

Lemma shortest_path_lightest_simple_witness :
  ∃ path n, shortest_path demo_graph "A" "F" = Ok path ∧
    NoDup path ∧ head path = Some "A" ∧ last path = Some "F" ∧
    path_weight demo_graph path n ∧ demo_distances !! "F" = Some (Fin n) ∧
    n <= 25.
Proof.
  apply (shortest_path_lightest_simple demo_graph "A" "F" demo_distances
           demo_previous_nodes 25).
  - apply nonneg_weightsb_spec. vm_compute. reflexivity.
  - apply elem_of_dom. vm_compute. eexists. reflexivity.
  - vm_compute. reflexivity.
  - apply (walk_edge _ _ "D" "F" 11 14);
      [|unfold edge; vm_compute; repeat constructor].
    apply (walk_edge _ _ "B" "D" 10 4);
      [|unfold edge; vm_compute; repeat constructor].
    apply (walk_edge _ _ "A" "B" 4 0);
      [constructor|unfold edge; vm_compute; repeat constructor].
Defined.

(** X13. With non-negative weights and a call of [dijkstra] that returns,
    [shortest_path] returns the empty list exactly for the nodes that
    cannot be reached from the start. *)
Theorem shortest_path_empty_iff (self : Graph) (start end_node : string)
    (d : gmap string dist) (p : gmap string (option string)) :
  nonneg_weights self → dijkstra self start = Ok (d, p) →
  (shortest_path self start end_node = Ok [] ↔
   ∀ W, ¬ walk self start end_node W).
Proof.
  intros Hnn Hrun. split.
  - intros Hsp W Hwalk.
    destruct (dijkstra_correct _ _ Hnn d p Hrun) as (_ & _ & Hreach).
    destruct (Hreach _ _ Hwalk) as [n Hn].
    destruct (shortest_path_finite _ _ Hnn d p end_node n Hrun Hn)
      as (path & Hroot & _ & Heq).
    rewrite Hsp in Heq. case_decide; [|done]. injection Heq as <-.
    by apply rooted_last in Hroot as [? _].
  - by apply (shortest_path_unreachable _ _ Hnn d p).
Qed.

Lemma shortest_path_empty_iff_witness :
  shortest_path demo_graph "A" "Z" = Ok [] ↔
  ∀ W, ¬ walk demo_graph "A" "Z" W.
Proof.
  apply (shortest_path_empty_iff demo_graph "A" "Z" demo_distances
           demo_previous_nodes).
  - apply nonneg_weightsb_spec. vm_compute. reflexivity.
  - vm_compute. reflexivity.
Defined.

(** X14. With non-negative weights, for a start that is a key and a call
    of [dijkstra] that returns, the path from the start to itself is
    [[start]]. *)
Theorem shortest_path_to_start (self : Graph) (start : string)
    (d : gmap string dist) (p : gmap string (option string)) :
  nonneg_weights self → start ∈ dom (adjacency self) →
  dijkstra self start = Ok (d, p) →
  shortest_path self start start = Ok [start].
Proof.
  intros Hnn Hstart Hrun.
  destruct (dijkstra_correct _ _ Hnn d p Hrun) as (Hs & _ & _).
  destruct (shortest_path_finite _ _ Hnn d p start 0 Hrun Hs)
    as (path & Hroot & _ & ->).
  rewrite decide_True by done. f_equal.
  by inversion Hroot.
Qed.

Lemma shortest_path_to_start_witness :
  shortest_path demo_graph "D" "D" = Ok ["D"].
Proof.
  destruct (dijkstra demo_graph "D") as [[d p]| |] eqn:Hrun;
    [|by vm_compute in Hrun..].
  apply (shortest_path_to_start demo_graph "D" d p).
  - apply nonneg_weightsb_spec. vm_compute. reflexivity.
  - apply elem_of_dom. vm_compute. eexists. reflexivity.
  - exact Hrun.
Defined.

(** ** A start that is no key *)

(** X15. For a start that is no key of the adjacency map [dijkstra]
    returns, on every graph: the start is at distance 0, every key is at
    [inf] with predecessor [None], and the predecessor table has no entry
    for the start. *)
Theorem dijkstra_unknown_start (self : Graph) (start : string) :
  start ∉ dom (adjacency self) →
  ∃ d p, dijkstra self start = Ok (d, p) ∧
    d !! start = Some (Fin 0) ∧ p !! start = None ∧
    dom d = {[start]} ∪ dom (adjacency self) ∧
    dom p = dom (adjacency self) ∧
    ∀ v, v ∈ dom (adjacency self) → d !! v = Some Inf ∧ p !! v = Some None.
Proof.
  intros Hs. eexists _, _. split; [by apply dijkstra_isolated|].
  split_and!.
  - apply lookup_insert_eq.
  - rewrite lookup_fmap. apply not_elem_of_dom in Hs. by rewrite Hs.
  - by rewrite dom_insert_L, dom_fmap_L.
  - by rewrite dom_fmap_L.
  - intros v Hv. rewrite lookup_insert_ne by (by intros ->).
    rewrite !lookup_fmap. apply elem_of_dom in Hv as [l ->]. done.
Qed.

Lemma dijkstra_unknown_start_witness :
  ∃ d p, dijkstra one_way_graph "B" = Ok (d, p) ∧
    d !! "B" = Some (Fin 0) ∧ p !! "B" = None ∧
    dom d = {["B"]} ∪ dom (adjacency one_way_graph) ∧
    dom p = dom (adjacency one_way_graph) ∧
    ∀ v, v ∈ dom (adjacency one_way_graph) →
         d !! v = Some Inf ∧ p !! v = Some None.
Proof.
  apply (dijkstra_unknown_start one_way_graph "B").
  apply not_elem_of_dom. vm_compute. reflexivity.
Defined.

(** X16. From a start that is no key [shortest_path] returns the empty
    list for every other node, on every graph, and raises [KeyError] for
    the start itself. *)
Theorem shortest_path_unknown_start (self : Graph)
    (start end_node : string) :
  start ∉ dom (adjacency self) →
  shortest_path self start end_node =
    if decide (end_node = start) then KeyError start else Ok [].
Proof.
  intros Hs. case_decide as He.
  - subst. by apply shortest_path_isolated.
  - unfold shortest_path. rewrite dijkstra_isolated by done.
    rewrite lookup_insert_ne, lookup_fmap by done.
    by destruct (adjacency self !! end_node).
Qed.

Lemma shortest_path_unknown_start_witness :
  shortest_path one_way_graph "B" "A" = Ok [].
Proof.
  apply (shortest_path_unknown_start one_way_graph "B" "A").
  apply not_elem_of_dom. vm_compute. reflexivity.
Defined.

(** ** [heapq] on [HeapItem]s *)

(** X17. [heappush] on a heap of [HeapItem]s gives a heap again, holding
    the items it held and the new one. *)
Theorem heappush_heap (heap : list HeapItem) (item : HeapItem) :
  heap_ordered heap →
  heap_ordered (heapq.heappush heap item) ∧
  heapq.heappush heap item ≡ₚ item :: heap.
Proof.
  rewrite !heap_ordered_ordered. intros Hh.
  destruct (heappush_spec heap item) as [? ?]. auto.
Qed.

Lemma heappush_heap_witness :
  let heap := [mkHeapItem (Fin 1) "a"; mkHeapItem (Fin 3) "b";
               mkHeapItem (Fin 5) "c"] in
  heap_ordered (heapq.heappush heap (mkHeapItem (Fin 0) "d")) ∧
  heapq.heappush heap (mkHeapItem (Fin 0) "d")
    ≡ₚ mkHeapItem (Fin 0) "d" :: heap.
Proof.
  intros heap. apply (heappush_heap heap (mkHeapItem (Fin 0) "d")).
  intros i c x y Hc Hx Hy.
  destruct i as [|[|[|i]]]; destruct Hc as [-> | ->]; simpl in *;
    simplify_eq; reflexivity.
Defined.

(** X18. [heappop] on a heap of [HeapItem]s fails exactly on the empty
    list; otherwise it returns an item no item of the heap is smaller
    than (equal distances are not told apart by [node]) and leaves a heap
    with the other items. *)
Theorem heappop_heap (heap : list HeapItem) :
  heap_ordered heap →
  (heapq.heappop heap = None ↔ heap = []) ∧
  ∀ item heap', heapq.heappop heap = Some (item, heap') →
    heap ≡ₚ item :: heap' ∧ heap_ordered heap' ∧
    ∀ other, other ∈ heap → item_lt other item = false.
Proof.
  intros Hh. split; [apply (heappop_empty (Q:=python_heapq))|].
  intros item heap' Hpop. pose proof Hh as Hh'.
  rewrite heap_ordered_ordered in Hh'.
  destruct (heappop_spec heap item heap' Hh' Hpop) as (Hperm & Hord & Hmin).
  split; [done|]. split; [by apply heap_ordered_ordered|].
  intros other Hin. rewrite Hperm in Hin.
  apply elem_of_cons in Hin as [->|Hin]; [apply item_lt_irrefl|by apply Hmin].
Qed.

Lemma heappop_heap_witness :
  let heap := [mkHeapItem (Fin 0) "d"; mkHeapItem (Fin 1) "a";
               mkHeapItem (Fin 5) "c"; mkHeapItem (Fin 3) "b"] in
  (heapq.heappop heap = None ↔ heap = []) ∧
  ∀ item heap', heapq.heappop heap = Some (item, heap') →
    heap ≡ₚ item :: heap' ∧ heap_ordered heap' ∧
    ∀ other, other ∈ heap → item_lt other item = false.
Proof.
  intros heap. apply (heappop_heap heap).
  intros i c x y Hc Hx Hy.
  destruct i as [|[|[|[|i]]]]; destruct Hc as [-> | ->]; simpl in *;
    simplify_eq; reflexivity.
Defined.

(** ** The order in which nodes are visited *)

Section visit_order_facts.
Context {Q : PriorityQueue} {L : HeapLaws Q}.
Context (self : Graph) (start : string).
Hypothesis Hnn : nonneg_weights self.
Implicit Types (c : config) (v u : string).

Lemma step_newly_visited c c' v :
  dijkstra_inv self start c → step self c = Next c' →
  v ∉ visited_nodes c → v ∈ visited_nodes c' →
  ∃ n, distances c' !! v = Some (Fin n) ∧
    ∀ u du, u ∈ visited_nodes c → distances c !! u = Some du →
            dist_le du (Fin n).
Proof.
  intros Hinv Hstep Hv Hv'.
  pose proof (wf_heap _ _ _ (inv_wf _ _ _ Hinv)) as Hheap.
  unfold step in Hstep.
  destruct (pos c) as [|u0 [|[v0 w] rest]] eqn:Hpos.
  - destruct (heappop (heap c)) as [[x h']|] eqn:Hpop; [|done].
    case_decide as Hvis; injection Hstep as <-; simpl in *; [done|].
    assert (v = node x) as -> by set_solver.
    destruct (pop_fresh_key _ _ c x h' Hinv Hpop Hvis) as (n & Hn & Hd).
    exists n. split; [done|]. intros u du Hu Hdu. rewrite <-Hn.
    apply (inv_visited_heap _ _ _ Hinv u du x Hu Hdu).
    rewrite (heappop_items _ _ _ Hheap Hpop). apply list_elem_of_here.
  - injection Hstep as <-. done.
  - destruct (distances c !! u0); [|done].
    destruct (distances c !! v0); [|done].
    destruct (dist_ltb _ _); injection Hstep as <-; done.
Qed.

Lemma visited_order c c' u v du dv :
  dijkstra_inv self start c → rtc (step_to self) c c' →
  u ∈ visited_nodes c → v ∉ visited_nodes c → v ∈ visited_nodes c' →
  distances c !! u = Some du → distances c' !! v = Some dv →
  dist_le du dv.
Proof.
  intros Hinv Hsteps. revert Hinv.
  induction Hsteps as [c|c c1 c' Hstep Hsteps IH];
    intros Hinv Hu Hv Hv' Hdu Hdv; [done|].
  pose proof (dijkstra_inv_step _ _ Hnn _ _ Hinv Hstep) as Hinv1.
  destruct (steps_distances _ _ Hnn c c1 Hinv (rtc_once _ _ Hstep))
    as (Hsub & _ & Hfix).
  destruct (decide (v ∈ visited_nodes c1)) as [Hv1|Hv1].
  - destruct (step_newly_visited c c1 v Hinv Hstep Hv Hv1) as (n & Hn & Hle).
    destruct (steps_distances _ _ Hnn c1 c' Hinv1 Hsteps) as (_ & _ & Hfix').
    destruct (Hfix' v Hv1) as [Heq _]. rewrite Heq, Hn in Hdv.
    injection Hdv as <-. by apply (Hle u).
  - apply IH; try done; [by apply Hsub|].
    destruct (Hfix u Hu) as [-> _]. done.
Qed.

End visit_order_facts.

(** X19. With non-negative weights nodes are visited in the order of their
    distances: a node visited later in a run never has a smaller distance
    than a node visited before it. *)
Theorem visited_in_distance_order (self : Graph) (start : string)
    (c c' : config) (u v : string) (du dv : dist) :
  nonneg_weights self → reachable self start c → rtc (step_to self) c c' →
  u ∈ visited_nodes c → v ∉ visited_nodes c → v ∈ visited_nodes c' →
  distances c !! u = Some du → distances c' !! v = Some dv →
  dist_le du dv.
Proof.
  intros Hnn Hc. apply (visited_order self start Hnn).
  by apply dijkstra_inv_reachable.
Qed.

Lemma visited_in_distance_order_witness :
  dist_le (Fin 2) (Fin 5).
Proof.
  apply (visited_in_distance_order demo_graph "A"
           (config_after 9 demo_graph (dijkstra_init demo_graph "A"))
           (config_after 31 demo_graph
              (config_after 9 demo_graph (dijkstra_init demo_graph "A")))
           "C" "E").
  - apply nonneg_weightsb_spec. vm_compute. reflexivity.
  - apply config_after_steps.
  - apply config_after_steps.
  - apply (bool_decide_unpack _). vm_compute. exact I.
  - apply (bool_decide_unpack _). vm_compute. exact I.
  - apply (bool_decide_unpack _). vm_compute. exact I.
  - vm_compute. reflexivity.
  - vm_compute. reflexivity.
Defined.
